(** * Credential authentication and session enrichment

    A shallow embedding of
    - [src/app/api/auth/[...nextauth]/route.ts]: the [Role] enum, the type
      guard [isUser], the credentials provider's [authorize] and the two
      callbacks [jwt] and [session];
    - [src/lib/prisma.ts]: the initialisation of the store-client module;
    - the other revisions of the callbacks, under [src/unnamed];
    - [src/components/report/ReportWizard.tsx]: the step handler and what
      the wizard shows;
    - [src/components/report/LocationInput.tsx]: the search, the choice of
      an option and the locate button, as the sequences of state updates,
      requests and callback calls they perform.

    [authorize] talks to two collaborators, the store
    ([prisma.user.findUnique]) and the hashing library ([bcrypt.compare]).
    It is embedded as a program tree whose nodes are those two calls, and is
    run against an arbitrary implementation of them; the run records every
    call that was made.  The callbacks mutate the objects they are handed, so
    they are embedded over a heap of JavaScript objects. *)

From stdpp Require Import base option strings list gmap.

Local Open Scope string_scope.

(** ** Values thrown *)

(** [new Error(message)] as thrown by the source, and the [TypeError] the
    language raises on a property access on [undefined]/[null] or on a
    property write on a primitive (module code is strict). *)
Inductive exn : Type :=
| Error (message : string)
| TypeError.

#[global] Instance exn_eq_dec : EqDecision exn.
Proof. solve_decision. Defined.

Inductive outcome (A : Type) : Type :=
| Return (a : A)
| Thrown (e : exn).
Arguments Return {A} a.
Arguments Thrown {A} e.

(** ** route.ts, lines 12-16: [enum Role] *)

Inductive Role : Type := ADMIN | USER | MODERATOR.

#[global] Instance Role_eq_dec : EqDecision Role.
Proof. solve_decision. Defined.

(** The string each member of the enum is at run time. *)
Definition Role_value (r : Role) : string :=
  match r with
  | ADMIN => "ADMIN"
  | USER => "USER"
  | MODERATOR => "MODERATOR"
  end.

(** * The credentials provider *)

Module Credentials.

(** The [credentials] argument of [authorize]:
    [Record<"email" | "password", string> | undefined]; a field the form did
    not submit is [None]. *)
Record Credentials : Type := {
  cred_email : option string;
  cred_password : option string;
}.

(** What [authorize] returns: the object literal of lines 62-67. *)
Record Claims : Type := {
  id : string;
  email : string;
  name : string;
  role : Role;
}.

#[global] Instance Claims_eq_dec : EqDecision Claims.
Proof. solve_decision. Defined.

(** [!v] for a [v] that is a string or [undefined]: [undefined] and the
    empty string are the falsy ones. *)
Definition not_ (v : option string) : bool :=
  match v with
  | None => true
  | Some s => bool_decide (s = "")
  end.

(** The error kinds of the specification, and the throw site of [authorize]
    each one names (the source tells them apart by message only). *)
Inductive FailureKind : Type := InvalidInput | UserNotFound | InvalidCredentials.

#[global] Instance FailureKind_eq_dec : EqDecision FailureKind.
Proof. solve_decision. Defined.

Definition failure_kind (e : exn) : option FailureKind :=
  match e with
  | Error m =>
      if decide (m = "Please enter an email and password") then Some InvalidInput
      else if decide (m = "No user found with this email") then Some UserNotFound
      else if decide (m = "Incorrect password") then Some InvalidCredentials
      else None
  | TypeError => None
  end.

(** The error the caller of [authorize] gets to see: the thrown value. *)
Definition surfaced {A : Type} (o : outcome A) : option exn :=
  match o with
  | Return _ => None
  | Thrown e => Some e
  end.

Section Authorize.

(** The Prisma schema is not part of the sources.  The type of the primary
    key is left open; [Id_toString] is its [toString] method. *)
Context {Id : Type} (Id_toString : Id → string).

(** Modelled from the spec: the [User] model of the Prisma schema, of which
    [authorize] reads [id], [email], [name], [password] (the stored digest)
    and [role]. *)
Record User : Type := {
  user_id : Id;
  user_email : string;
  user_name : string;
  user_password : string;
  user_role : Role;
}.

(** Programs over the two collaborators. *)
Inductive Prog (A : Type) : Type :=
| Done (a : A)
| Throw (e : exn)
| prisma_user_findUnique (where_email : string) (k : option User → Prog A)
| bcrypt_compare (s hash : string) (k : bool → Prog A).
Arguments Done {A} a.
Arguments Throw {A} e.
Arguments prisma_user_findUnique {A} where_email k.
Arguments bcrypt_compare {A} s hash k.

Fixpoint Prog_bind {A B : Type} (f : A → Prog B) (p : Prog A) : Prog B :=
  match p with
  | Done a => f a
  | Throw e => Throw e
  | prisma_user_findUnique e k => prisma_user_findUnique e (λ r, Prog_bind f (k r))
  | bcrypt_compare s h k => bcrypt_compare s h (λ b, Prog_bind f (k b))
  end.

#[local] Instance Prog_ret : MRet Prog := λ A a, Done a.
#[local] Instance Prog_mbind : MBind Prog := λ A B f p, Prog_bind f p.

Definition findUnique (where_email : string) : Prog (option User) :=
  prisma_user_findUnique where_email Done.

Definition compare (s hash : string) : Prog bool :=
  bcrypt_compare s hash Done.

(** Lines 62-67, the object literal:
    [{ id: user.id.toString(), email: user.email, name: user.name,
       role: user.role }]. *)
Definition buildClaims (user : User) : Claims :=
  {| id := Id_toString (user_id user);
     email := user_email user;
     name := user_name user;
     role := user_role user |}.

(** Lines 37-68. *)
Definition authorize (credentials : option Credentials) : Prog Claims :=
  if not_ (credentials ≫= cred_email) || not_ (credentials ≫= cred_password) then
    Throw (Error "Please enter an email and password")
  else
    match credentials with
    | Some {| cred_email := Some email; cred_password := Some password |} =>
        user ← findUnique email;
        match user with
        | None => Throw (Error "No user found with this email")
        | Some user =>
            passwordMatch ← compare password (user_password user);
            if negb passwordMatch then Throw (Error "Incorrect password")
            else mret (buildClaims user)
        end
    | _ =>
        (* not reached: the guard above has thrown for these *)
        Throw TypeError
    end.

(** *** Running a program *)

(** The collaborators.  A lookup either rejects (the store is unavailable)
    or resolves to a record or to [null]; a comparison either rejects (the
    library cannot read the digest) or resolves to a boolean. *)
Record Services : Type := {
  findUserByEmail : string → exn + option User;
  verify : string → string → exn + bool;
}.

(** The calls a run makes, in order. *)
Inductive call : Type :=
| StoreLookup (where_email : string)
| DigestCompare (s hash : string).

Fixpoint run {A : Type} (sv : Services) (p : Prog A) : list call * outcome A :=
  match p with
  | Done a => ([], Return a)
  | Throw e => ([], Thrown e)
  | prisma_user_findUnique e k =>
      match findUserByEmail sv e with
      | inl err => ([StoreLookup e], Thrown err)
      | inr r => let '(calls, o) := run sv (k r) in (StoreLookup e :: calls, o)
      end
  | bcrypt_compare s h k =>
      match verify sv s h with
      | inl err => ([DigestCompare s h], Thrown err)
      | inr b => let '(calls, o) := run sv (k b) in (DigestCompare s h :: calls, o)
      end
  end.

Definition is_lookup (c : call) : bool :=
  match c with
  | StoreLookup _ => true
  | DigestCompare _ _ => false
  end.

(** A field of the credentials that is missing or the empty string. *)
Definition missing_or_empty (v : option string) : Prop :=
  v = None ∨ v = Some "".

End Authorize.

Arguments Done {Id A} a.
Arguments Throw {Id A} e.
Arguments prisma_user_findUnique {Id A} where_email k.
Arguments bcrypt_compare {Id A} s hash k.

End Credentials.

(** * The callbacks *)

Module JS.

(** ** Objects and the heap

    The callbacks receive references to mutable objects and write to them
    in place.  Numbers are integers here; tokens hold no others. *)

Abbreviation loc := positive.

Inductive value : Type :=
| VUndefined
| VNull
| VBool (b : bool)
| VNum (n : Z)
| VStr (s : string)
| VRef (l : loc).

#[global] Instance value_eq_dec : EqDecision value.
Proof. solve_decision. Defined.

(** An object is its own properties; a key bound to [VUndefined] is a
    property that exists and holds [undefined]. *)
Abbreviation object := (gmap string value).
Abbreviation heap := (gmap loc object).

(** A computation on the heap either returns or throws, and leaves a heap
    behind; [None] is a reference to no object, which no JavaScript
    program can hold. *)
Definition M (A : Type) : Type := heap → option (outcome A * heap).

Definition M_ret {A : Type} (a : A) : M A := λ h, Some (Return a, h).

Definition M_bind {A B : Type} (f : A → M B) (m : M A) : M B :=
  λ h, match m h with
       | Some (Return a, h') => f a h'
       | Some (Thrown e, h') => Some (Thrown e, h')
       | None => None
       end.

Definition throw {A : Type} (e : exn) : M A := λ h, Some (Thrown e, h).

#[global] Instance M_mret : MRet M := @M_ret.
#[global] Instance M_mbind : MBind M := @M_bind.

(** Truthiness, as [if (v)] and [v && ...] test it. *)
Definition truthy (v : value) : bool :=
  match v with
  | VUndefined | VNull => false
  | VBool b => b
  | VNum n => negb (bool_decide (n = 0%Z))
  | VStr s => negb (bool_decide (s = ""))
  | VRef _ => true
  end.

(** [v.k].  On [undefined] and [null] the access throws; a primitive has no
    property of its own, and neither it nor an object inherits one named
    [role] or [user], the two names the callbacks read. *)
Definition get (v : value) (k : string) : M value :=
  λ h, match v with
       | VUndefined | VNull => Some (Thrown TypeError, h)
       | VBool _ | VNum _ | VStr _ => Some (Return VUndefined, h)
       | VRef l => o ← h !! l; Some (Return (default VUndefined (o !! k)), h)
       end.

(** [v?.k] *)
Definition get_optional (v : value) (k : string) : M value :=
  match v with
  | VUndefined | VNull => mret VUndefined
  | _ => get v k
  end.

(** [v.k = x], in strict code: creating a property on a primitive throws
    as the access on [undefined] and [null] does. *)
Definition set (v : value) (k : string) (x : value) : M unit :=
  λ h, match v with
       | VRef l => o ← h !! l; Some (Return (), <[l := <[k := x]> o]> h)
       | _ => Some (Thrown TypeError, h)
       end.

(** An object literal: a new object at a location not in use. *)
Definition new_object (o : object) : M value :=
  λ h, let l := fresh (dom h) in Some (Return (VRef l), <[l := o]> h).

(** ** route.ts, lines 23-25
    [return (user as User).role !== undefined;] *)
Definition isUser (user : value) : M bool :=
  r ← get user "role";
  mret (negb (bool_decide (r = VUndefined))).

(** ** route.ts, lines 73-79
    [if (user && isUser(user)) { (token as CustomJWT).role = user.role; }
     return token;] *)
Definition jwt (token user : value) : M value :=
  c ← (if truthy user then isUser user else mret false);
  (if c : bool then r ← get user "role"; set token "role" r else mret ());;
  mret token.

(** ** route.ts, lines 80-85
    [if (session?.user) {
       (session.user as { role: string }).role = (token as CustomJWT).role; }
     return session;]
    The assignment evaluates its target [session.user] first, then the
    right-hand side, then writes. *)
Definition session (session token : value) : M value :=
  c ← get_optional session "user";
  (if truthy c then
     target ← get session "user";
     r ← get token "role";
     set target "role" r
   else mret ());;
  mret session.

(** ** The other two revisions of the type guard (under [src/unnamed])

    [return user && typeof user.role === 'string';] *)
Definition is_string (v : value) : bool :=
  match v with VStr _ => true | _ => false end.

Definition isUser_any (user : value) : M bool :=
  if truthy user then r ← get user "role"; mret (is_string r)
  else mret false.

(** [return typeof (user as { role: string }).role === "string";] *)
Definition isUser_unknown (user : value) : M bool :=
  r ← get user "role";
  mret (is_string r).

(** ** Reading the heap *)

(** The value [v.k] has in heap [h], when reading it returns. *)
Definition field (h : heap) (v : value) (k : string) : option value :=
  match get v k h with
  | Some (Return x, _) => Some x
  | _ => None
  end.

(** [v] refers to an object of [h]. *)
Definition object_at (h : heap) (v : value) : option (loc * object) :=
  match v with
  | VRef l => o ← h !! l; Some (l, o)
  | _ => None
  end.

Definition is_object (h : heap) (v : value) : bool :=
  bool_decide (is_Some (object_at h v)).

Definition nullish (v : value) : bool :=
  match v with VUndefined | VNull => true | _ => false end.

(** [v] is an object without a property [role]. *)
Definition lacks_role (h : heap) (v : value) : bool :=
  match object_at h v with
  | Some (_, o) => bool_decide (o !! "role" = None)
  | None => false
  end.

(** The [user] object of a session, when the session has one. *)
Definition user_of (h : heap) (session : value) : option (loc * object) :=
  '(_, o) ← object_at h session;
  u ← o !! "user";
  object_at h u.

(** The type of the [token] argument, [JWT]: an object. *)
Definition JWT_shape (h : heap) (token : value) : bool := is_object h token.

(** The type of the [session] argument, as the callback treats it: absent,
    or an object [Session] whose optional [user] is, when present, an
    object. *)
Definition Session_shape (h : heap) (session : value) : bool :=
  nullish session ||
  match object_at h session with
  | Some (_, o) =>
      match o !! "user" with
      | None => true
      | Some u => nullish u || is_object h u
      end
  | None => false
  end.

End JS.

(** * Login and the requests that follow it *)

Module Pipeline.

Import Credentials JS.

Section Pipeline.

Context {Id : Type} (Id_toString : Id → string).

(** The object [authorize] returns, as the framework hands it to the [jwt]
    callback: the members of [Role] are strings at run time. *)
Definition claims_object (c : Claims) : object :=
  <["id" := VStr (id c)]>
    (<["email" := VStr (email c)]>
       (<["name" := VStr (name c)]>
          (<["role" := VStr (Role_value (role c))]> ∅))).

(** A sign-in: [authorize], and on success the [jwt] callback with the
    object it returned as [user].  The calls [authorize] made are dropped
    here. *)
Definition signIn (sv : Services) (credentials : option Credentials)
    (token : value) : M value :=
  match (run sv (authorize Id_toString credentials)).2 with
  | Thrown e => throw e
  | Return claims =>
      user ← new_object (claims_object claims);
      jwt token user
  end.

(** A later request: the [jwt] callback without a [user], then the
    [session] callback on the base session of that request. *)
Definition request (token base : value) : M value :=
  token' ← jwt token VUndefined;
  session base token'.

(** The heaps a token can be found in once a sign-in with it has succeeded:
    after the sign-in, and after any request that follows, whatever its
    base session and whether it returned or threw. *)
Inductive signed_in (sv : Services) (token : value) : heap → Prop :=
| signed_in_first credentials h h' :
    signIn sv credentials token h = Some (Return token, h') →
    signed_in sv token h'
| signed_in_next base o h h' :
    signed_in sv token h →
    request token base h = Some (o, h') →
    signed_in sv token h'.

(** The three strings a role may be. *)
Definition role_strings : list value :=
  [VStr "ADMIN"; VStr "USER"; VStr "MODERATOR"].

(** [n] requests in a row on which the [jwt] callback gets no [user]. *)
Fixpoint later_requests (n : nat) (token : value) : M value :=
  match n with
  | 0 => mret token
  | S n => token' ← jwt token VUndefined; later_requests n token'
  end.

(** The claims of a record embedded in a token, and a session projected
    from that token. *)
Definition round_trip (user : User) (token base : value) : M value :=
  claims ← new_object (claims_object (buildClaims Id_toString user));
  token' ← jwt token claims;
  session base token'.

(** The same with the claims object itself as the decoded token. *)
Definition round_trip_direct (user : User) (base : value) : M value :=
  claims ← new_object (claims_object (buildClaims Id_toString user));
  session base claims.

End Pipeline.

End Pipeline.

(** * The store client: prisma.ts *)

Module Prisma.

(** Clients are told apart by the order they were constructed in. *)
Abbreviation PrismaClient := nat.

(** What an evaluation of the module does to the process. *)
Inductive event : Type :=
| Construct (c : PrismaClient)
| ReadGlobal
| WriteGlobal (c : PrismaClient).

#[global] Instance event_eq_dec : EqDecision event.
Proof. solve_decision. Defined.

(** The process: [global.prisma] and the record of what has happened. *)
Record process : Type := {
  global_prisma : option PrismaClient;
  log : list event;
}.

Definition is_construct (e : event) : bool :=
  match e with Construct _ => true | _ => false end.

Definition is_global_access (e : event) : bool :=
  match e with Construct _ => false | _ => true end.

(** How many clients have been constructed. *)
Definition constructed (l : list event) : nat :=
  length (filter is_construct l).

Definition St (A : Type) : Type := process → A * process.

#[global] Instance St_mret : MRet St := λ A a p, (a, p).
#[global] Instance St_mbind : MBind St :=
  λ A B f m p, let '(a, p') := m p in f a p'.

(** [new PrismaClient()] *)
Definition new_PrismaClient : St PrismaClient :=
  λ p, let c := constructed (log p) in
       (c, {| global_prisma := global_prisma p; log := log p ++ [Construct c] |}).

(** [global.prisma] *)
Definition read_global : St (option PrismaClient) :=
  λ p, (global_prisma p,
        {| global_prisma := global_prisma p; log := log p ++ [ReadGlobal] |}).

(** [global.prisma = c] *)
Definition write_global (c : PrismaClient) : St unit :=
  λ p, ((), {| global_prisma := Some c; log := log p ++ [WriteGlobal c] |}).

(** Lines 8-19; the result is the default export.
    [if (process.env.NODE_ENV === "production") { prisma = new PrismaClient(); }
     else { if (!global.prisma) { global.prisma = new PrismaClient(); }
            prisma = global.prisma; }] *)
Definition prisma (NODE_ENV : option string) : St (option PrismaClient) :=
  if bool_decide (NODE_ENV = Some "production") then
    c ← new_PrismaClient;
    mret (Some c)
  else
    g ← read_global;
    (if negb (bool_decide (is_Some g)) then
       c ← new_PrismaClient;
       write_global c
     else mret ());;
    read_global.

(** The module evaluated [n] times in one process, as a reload does; the
    exports are listed oldest first. *)
Fixpoint reloads (NODE_ENV : option string) (n : nat) : St (list (option PrismaClient)) :=
  match n with
  | 0 => mret []
  | S n =>
      c ← prisma NODE_ENV;
      cs ← reloads NODE_ENV n;
      mret (c :: cs)
  end.

End Prisma.

(** * A concrete scenario

    One record in the store, a toy digest, and a small heap with a base
    session (location 1), its [user] object (location 2) and a token
    (location 3). *)

Module Scenario.

Import Credentials JS.

Definition alice : User (Id := string) :=
  {| user_id := "1";
     user_email := "a@x.com";
     user_name := "A";
     user_password := "digest:pw1";
     user_role := ADMIN |}.

Definition services : Services (Id := string) :=
  {| findUserByEmail := λ e, inr (if decide (e = "a@x.com") then Some alice else None);
     verify := λ s hash, inr (bool_decide (hash = "digest:" +:+ s)) |}.

Definition String_toString (s : string) : string := s.

Definition credentials (e p : string) : option Credentials :=
  Some {| cred_email := Some e; cred_password := Some p |}.

Definition base_session : value := VRef 1.
Definition token : value := VRef 3.

Definition heap0 : heap :=
  <[1%positive := <["user" := VRef 2]> (<["expires" := VStr "2026-01-01"]> ∅)]>
    (<[2%positive := <["email" := VStr "a@x.com"]> (<["name" := VStr "A"]> ∅)]>
       (<[3%positive := <["email" := VStr "a@x.com"]> (<["sub" := VStr "1"]> ∅)]> ∅)).

(** The same with a role already in the token. *)
Definition heap_moderator : heap :=
  <[3%positive := <["role" := VStr "MODERATOR"]> ∅]> heap0.

(** The [user] object of the base session. *)
Definition user_object : object :=
  <["email" := VStr "a@x.com"]> (<["name" := VStr "A"]> ∅).

(** The heap a [session] callback leaves from [heap_moderator]. *)
Definition heap_projected : heap :=
  <[2%positive := <["role" := VStr "MODERATOR"]> user_object]> heap_moderator.

(** The heap the sign-in of "a@x.com" leaves from [heap0]. *)
Definition heap_signed_in : heap :=
  match Pipeline.signIn String_toString services (credentials "a@x.com" "pw1") token heap0 with
  | Some (_, h) => h
  | None => heap0
  end.

(** A process in which a client is already cached on the global. *)
Definition warm : Prisma.process :=
  {| Prisma.global_prisma := Some 0; Prisma.log := [Prisma.Construct 0] |}.

Definition cold : Prisma.process :=
  {| Prisma.global_prisma := None; Prisma.log := [] |}.

End Scenario.

(** * The other revisions of the [jwt] callback

    The callbacks of the two revisions under [src/unnamed] and of the one
    appended to [LocationInput.tsx] differ from [route.ts] in the type
    guard only; their [session] callback is the one of [route.ts]. *)

Module Revisions.

Import JS.

(** [if (user && isUser(user)) { token.role = user.role; } return token;]
    with [isUser] the guard [user && typeof user.role === 'string']. *)
Definition jwt_any (token user : value) : M value :=
  c ← (if truthy user then isUser_any user else mret false);
  (if c : bool then r ← get user "role"; set token "role" r else mret ());;
  mret token.

(** The same with the guard [typeof user.role === "string"]. *)
Definition jwt_unknown (token user : value) : M value :=
  c ← (if truthy user then isUser_unknown user else mret false);
  (if c : bool then r ← get user "role"; set token "role" r else mret ());;
  mret token.

End Revisions.

(** * The report wizard: ReportWizard.tsx *)

Module ReportWizard.

Import JS.

(** The two pieces of state of the component.  [reportData] is [null] or
    an object; steps are small integers. *)
Record state : Type := {
  currentStep : Z;
  reportData : option object;
}.

(** [useState(1)], [useState(null)] *)
Definition initial : state := {| currentStep := 1; reportData := None |}.

(** [{ ...reportData, ...data }]: the properties of [reportData] (none when
    it is [null]), overridden by those of [data]. *)
Definition spread (reportData : option object) (data : object) : object :=
  data ∪ default ∅ reportData.

(** Lines 17-25.  The handler of a render sees the state that render
    captured, [seen]; [setReportData] with a value replaces the pending
    state and [setCurrentStep] with an updater is applied to it.
    [setReportData({ ...reportData, ...data });
     if (currentStep === 4) { return; }
     setCurrentStep((prev) => prev + 1);] *)
Definition handleStepComplete (seen : state) (data : object) (pending : state) : state :=
  let pending := {| currentStep := currentStep pending;
                    reportData := Some (spread (reportData seen) data) |} in
  if bool_decide (currentStep seen = 4%Z) then pending
  else {| currentStep := (currentStep pending + 1)%Z;
          reportData := reportData pending |}.

(** A completion handled by the render that shows the current state. *)
Definition complete (s : state) (data : object) : state :=
  handleStepComplete s data s.

(** One completion per render, oldest first. *)
Definition completions (ds : list object) (s : state) : state :=
  foldl complete s ds.

(** Several completions handled by one and the same render. *)
Definition completions_same_render (seen : state) (ds : list object) : state :=
  foldl (λ pending d, handleStepComplete seen d pending) seen ds.

(** What the component shows. *)
Inductive view : Type :=
| ReportForm
| ReportSubmitted (data : value)
| Nothing.

(** Lines 30-33.
    [{currentStep === 1 && <ReportForm ... />}
     {currentStep === 2 && <ReportSubmitted data={reportData?.reportId} ... />}] *)
Definition render (s : state) : view :=
  if bool_decide (currentStep s = 1%Z) then ReportForm
  else if bool_decide (currentStep s = 2%Z) then
    ReportSubmitted (match reportData s with
                     | None => VUndefined
                     | Some o => default VUndefined (o !! "reportId")
                     end)
  else Nothing.

End ReportWizard.

(** * The location input: LocationInput.tsx *)

Module LocationInput.

Section LocationInput.

(** Coordinates are floating-point numbers; nothing here computes with
    them.  [parseFloat] and [toFixed(6)] are the two library functions
    applied to them, and [length] is the [length] of a string, its number
    of UTF-16 code units. *)
Context {Float : Type}.
Context (parseFloat : string → Float) (toFixed6 : Float → string).
Context (length : string → nat).

(** Lines 5-10 and 12-16. *)
Record LocationOption : Type := {
  value : string;
  label : string;
  lat : Float;
  lon : Float;
}.

Record NominatimPlace : Type := {
  place_lat : string;
  place_lon : string;
  display_name : string;
}.

(** What the component does, in the order it does it: state updates,
    requests, and calls of the two callbacks it was given. *)
Inductive effect : Type :=
| setOptions (options : list LocationOption)
| setIsLoading (b : bool)
| setLocationError (e : option string)
| axios_get_search (q : string)
| axios_get_reverse (lat lon : Float)
| getCurrentPosition
| console_error (msg : string)
| onChange (v : string)
| onCoordinatesChange (coordinates : option (Float * Float)).

(** Lines 30-32. *)
Record state : Type := {
  options : list LocationOption;
  isLoading : bool;
  locationError : option string;
}.

Definition apply (s : state) (e : effect) : state :=
  match e with
  | setOptions os =>
      {| options := os; isLoading := isLoading s; locationError := locationError s |}
  | setIsLoading b =>
      {| options := options s; isLoading := b; locationError := locationError s |}
  | setLocationError err =>
      {| options := options s; isLoading := isLoading s; locationError := err |}
  | _ => s
  end.

(** The state once all the updates among the effects are in. *)
Definition settle (s : state) (es : list effect) : state := foldl apply s es.

(** Lines 70-75, the function mapped over the places. *)
Definition format (place : NominatimPlace) : LocationOption :=
  {| value := place_lat place +:+ "," +:+ place_lon place;
     label := display_name place;
     lat := parseFloat (place_lat place);
     lon := parseFloat (place_lon place) |}.

(** Lines 56-84, given what the request comes back with: a rejection or
    the array of places. *)
Definition fetchLocations (response : exn + list NominatimPlace) (query : string)
    : list effect :=
  [setIsLoading true; setLocationError None; axios_get_search query]
  ++ match response with
     | inr places => [setOptions (map format places)]
     | inl _ =>
         [console_error "Error fetching locations:";
          setLocationError (Some "Failed to fetch location suggestions.")]
     end
  ++ [setIsLoading false].

(** Lines 47-53, the effect on [debouncedQuery]. *)
Definition search (response : exn + list NominatimPlace) (debouncedQuery : string)
    : list effect :=
  if bool_decide (2 < length debouncedQuery) then fetchLocations response debouncedQuery
  else [setOptions []].

(** [onCoordinatesChange?.(a, b)]: the callback is optional. *)
Definition onCoordinatesChange_optional (given : bool)
    (coordinates : option (Float * Float)) : list effect :=
  if given then [onCoordinatesChange coordinates] else [].

(** Lines 105-113. *)
Definition handleChange (given : bool) (selectedOption : option LocationOption)
    : list effect :=
  match selectedOption with
  | Some o => onChange (label o) :: onCoordinatesChange_optional given (Some (lat o, lon o))
  | None => onChange "" :: onCoordinatesChange_optional given None
  end.

(** Line 160: [options.find((option) => option.label === value) || null] *)
Definition selected (options : list LocationOption) (v : string) : option LocationOption :=
  List.find (λ o, bool_decide (label o = v)) options.

(** Lines 185-201, the message for the [code] of a position error:
    [PERMISSION_DENIED] is 1, [POSITION_UNAVAILABLE] 2 and [TIMEOUT] 3. *)
Definition position_error_message (code : Z) : string :=
  if bool_decide (code = 1%Z) then "Please allow location access in your browser settings"
  else if bool_decide (code = 2%Z) then "Location information is unavailable"
  else if bool_decide (code = 3%Z) then "Location request timed out"
  else "An unknown error occurred".

(** Lines 87-102, given what the request comes back with: a rejection, or
    a body whose [display_name] is a string or missing.  The result is
    that name or [null], and the effects are those of the call. *)
Definition fetchCurrentLocationName (response : exn + option string) (lat lon : Float)
    : list effect * option string :=
  match response with
  | inr name => ([axios_get_reverse lat lon], name)
  | inl _ =>
      ([axios_get_reverse lat lon; console_error "Error fetching current location name:"],
       None)
  end.

(** [if (locationName)] *)
Definition truthy_name (name : option string) : bool :=
  match name with
  | Some s => negb (bool_decide (s = ""))
  | None => false
  end.

(** Lines 173-227, the click on the button, given whether the browser has
    [navigator.geolocation], what [getCurrentPosition] calls back with (the
    code of an error, or the coordinates) and what the reverse lookup
    comes back with.  Every error thrown inside the [try] is an [Error],
    so the [catch] shows its message. *)
Definition onClick (given : bool) (supported : bool) (position : Z + Float * Float)
    (response : exn + option string) : list effect :=
  [setIsLoading true; setLocationError None]
  ++ (if negb supported then
        [console_error "Location error:";
         setLocationError (Some "Geolocation is not supported by your browser")]
      else
        getCurrentPosition ::
        match position with
        | inl code =>
            [console_error "Location error:";
             setLocationError (Some (position_error_message code))]
        | inr (latitude, longitude) =>
            let '(es, locationName) :=
              fetchCurrentLocationName response latitude longitude in
            es
            ++ [onChange (if truthy_name locationName then default "" locationName
                          else toFixed6 latitude +:+ ", " +:+ toFixed6 longitude)]
            ++ onCoordinatesChange_optional given (Some (latitude, longitude))
        end)
  ++ [setIsLoading false].

Definition is_callback (e : effect) : bool :=
  match e with
  | onChange _ | onCoordinatesChange _ => true
  | _ => false
  end.

Definition is_request (e : effect) : bool :=
  match e with
  | axios_get_search _ | axios_get_reverse _ _ => true
  | _ => false
  end.

End LocationInput.

End LocationInput.

(** * More of the scenario *)

Module Examples.

Import Credentials JS.

(** A store that cannot be reached. *)
Definition unreachable : Services (Id := string) :=
  {| findUserByEmail := λ _, inl (Error "Can't reach database server");
     verify := λ s hash, inr (bool_decide (hash = "digest:" +:+ s)) |}.

(** A store whose record of "a@x.com" holds a digest the hashing library
    cannot read. *)
Definition corrupt : Services (Id := string) :=
  {| findUserByEmail := λ e, inr (if decide (e = "a@x.com") then Some Scenario.alice else None);
     verify := λ _ _, inl (Error "Invalid salt version") |}.

(** [Scenario.heap0] with one more session (location 5) whose [user] is a
    string. *)
Definition heap_primitive_user : heap :=
  <[5%positive := <["user" := VStr "a@x.com"]> ∅]> Scenario.heap0.

(** [Scenario.heap0] with one more object (location 4), a user whose
    [role] is [null]. *)
Definition heap_null_role : heap :=
  <[4%positive := <["role" := VNull]> (<["id" := VStr "2"]> ∅)]> Scenario.heap0.

(** What [jwt] of [route.ts] leaves of it: the [null] in the token. *)
Definition heap_null_token : heap :=
  <[3%positive := <["role" := VNull]>
                    (<["email" := VStr "a@x.com"]> (<["sub" := VStr "1"]> ∅))]>
    heap_null_role.

(** The data two steps of the wizard complete with. *)
Definition submitted : object :=
  <["reportId" := VStr "R-1"]> (<["success" := VBool true]> ∅).

Definition acknowledged : object :=
  <["message" := VStr "ok"]> ∅.

(** Options of the location input, with coordinates kept as text; two of
    them share a label. *)
Definition paris : LocationInput.LocationOption (Float := string) :=
  {| LocationInput.value := "48.85,2.35"; LocationInput.label := "Paris";
     LocationInput.lat := "48.85"; LocationInput.lon := "2.35" |}.

(** Another place of the same name. *)
Definition paris_texas : LocationInput.LocationOption (Float := string) :=
  {| LocationInput.value := "33.66,-95.55"; LocationInput.label := "Paris";
     LocationInput.lat := "33.66"; LocationInput.lon := "-95.55" |}.

Definition london : LocationInput.LocationOption (Float := string) :=
  {| LocationInput.value := "51.50,-0.12"; LocationInput.label := "London";
     LocationInput.lat := "51.50"; LocationInput.lon := "-0.12" |}.

Definition idle : LocationInput.state (Float := string) :=
  {| LocationInput.options := [paris; london];
     LocationInput.isLoading := false;
     LocationInput.locationError := Some "Failed to fetch location suggestions." |}.

End Examples.

Import Credentials JS Pipeline.

(** * Facts about [authorize] *)

Section AuthorizeFacts.

Context {Id : Type} (Id_toString : Id → string) (sv : Services (Id := Id)).

Lemma authorize_guard_passes (mail pass : string) :
  mail ≠ "" → pass ≠ "" →
  authorize Id_toString (Some {| cred_email := Some mail; cred_password := Some pass |}) =
  prisma_user_findUnique mail (λ user,
    match user with
    | None => Throw (Error "No user found with this email")
    | Some user =>
        bcrypt_compare pass (user_password user) (λ passwordMatch,
          if negb passwordMatch then Throw (Error "Incorrect password")
          else Done (buildClaims Id_toString user))
    end).
Proof.
  intros Hm Hp. unfold authorize; simpl.
  rewrite !bool_decide_eq_false_2 by done. simpl.
  f_equal.
Qed.

(** C1. Non-empty credentials, a record found under exactly the submitted
    email and a password the hashing library accepts against the record's
    digest: [authorize] looks the email up once, compares once, and returns
    [{ id: user.id.toString(), email, name, role }] with the role of the
    record, one of the three members of the enum. *)
Theorem authorize_returns_claims (mail pass : string) (u : User) :
  mail ≠ "" → pass ≠ "" →
  findUserByEmail sv mail = inr (Some u) →
  verify sv pass (user_password u) = inr true →
  let claims := {| id := Id_toString (user_id u);
                   email := user_email u;
                   name := user_name u;
                   role := user_role u |} in
  run sv (authorize Id_toString
            (Some {| cred_email := Some mail; cred_password := Some pass |}))
    = ([StoreLookup mail; DigestCompare pass (user_password u)], Return claims)
  ∧ role claims = user_role u
  ∧ Role_value (role claims) ∈ ["ADMIN"; "USER"; "MODERATOR"].
Proof.
  intros Hm Hp Hfind Hver claims. subst claims.
  rewrite authorize_guard_passes by done.
  simpl. rewrite Hfind. simpl. rewrite Hver. simpl.
  repeat split.
  destruct (user_role u); simpl; set_solver.
Qed.

(** C2. Non-empty credentials: when the lookup finds no record [authorize]
    throws at the [UserNotFound] site, when it finds one whose digest the
    password does not verify against it throws at the
    [InvalidCredentials] site, and the two thrown values and kinds
    differ. *)
Theorem authorize_failure_kinds (mail pass : string) :
  mail ≠ "" → pass ≠ "" →
  let credentials := Some {| cred_email := Some mail; cred_password := Some pass |} in
  (findUserByEmail sv mail = inr None →
     run sv (authorize Id_toString credentials)
       = ([StoreLookup mail], Thrown (Error "No user found with this email")))
  ∧ (∀ u, findUserByEmail sv mail = inr (Some u) →
          verify sv pass (user_password u) = inr false →
     run sv (authorize Id_toString credentials)
       = ([StoreLookup mail; DigestCompare pass (user_password u)],
          Thrown (Error "Incorrect password")))
  ∧ failure_kind (Error "No user found with this email") = Some UserNotFound
  ∧ failure_kind (Error "Incorrect password") = Some InvalidCredentials
  ∧ UserNotFound ≠ InvalidCredentials
  ∧ Error "No user found with this email" ≠ Error "Incorrect password".
Proof.
  intros Hm Hp credentials. subst credentials.
  rewrite authorize_guard_passes by done.
  split; [|split].
  - intros Hfind. simpl. rewrite Hfind. done.
  - intros u Hfind Hver. simpl. rewrite Hfind. simpl. rewrite Hver. done.
  - done.
Qed.

(** C3. Credentials that are absent, or whose email or password is missing
    or empty: [authorize] is the single throw of the first guard, so
    whatever the collaborators are it fails with [InvalidInput] and calls
    neither of them; in particular there is no store lookup. *)
Theorem authorize_invalid_input (credentials : option Credentials) :
  missing_or_empty (credentials ≫= cred_email)
  ∨ missing_or_empty (credentials ≫= cred_password) →
  authorize Id_toString credentials = Throw (Error "Please enter an email and password")
  ∧ run sv (authorize Id_toString credentials)
      = ([], Thrown (Error "Please enter an email and password"))
  ∧ failure_kind (Error "Please enter an email and password") = Some InvalidInput
  ∧ filter is_lookup (run sv (authorize Id_toString credentials)).1 = [].
Proof.
  intros H.
  assert (Hg : not_ (credentials ≫= cred_email) || not_ (credentials ≫= cred_password) = true).
  { apply orb_true_iff.
    destruct H as [[-> | ->] | [-> | ->]]; simpl; auto. }
  unfold authorize. rewrite Hg. done.
Qed.

(** C6, as the code has it. For non-empty credentials the two failures
    reach the caller as two different errors: the message "No user found
    with this email" when no record matches, and "Incorrect password" when
    one does and the password is wrong. *)
Theorem authorize_failures_distinguishable (mail1 pass1 mail2 pass2 : string) (u : User) :
  mail1 ≠ "" → pass1 ≠ "" → mail2 ≠ "" → pass2 ≠ "" →
  findUserByEmail sv mail1 = inr None →
  findUserByEmail sv mail2 = inr (Some u) →
  verify sv pass2 (user_password u) = inr false →
  let run1 := run sv (authorize Id_toString
                (Some {| cred_email := Some mail1; cred_password := Some pass1 |})) in
  let run2 := run sv (authorize Id_toString
                (Some {| cred_email := Some mail2; cred_password := Some pass2 |})) in
  surfaced run1.2 = Some (Error "No user found with this email")
  ∧ surfaced run2.2 = Some (Error "Incorrect password")
  ∧ surfaced run1.2 ≠ surfaced run2.2.
Proof.
  intros Hm1 Hp1 Hm2 Hp2 Hnone Hsome Hver run1 run2. subst run1 run2.
  rewrite !authorize_guard_passes by done.
  simpl. rewrite Hnone, Hsome. simpl. rewrite Hver. simpl.
  done.
Qed.

End AuthorizeFacts.

(** The scenario of the specification: the record of "a@x.com" with the
    right password. *)
Lemma authorize_returns_claims_witness :
  run Scenario.services
    (authorize Scenario.String_toString (Scenario.credentials "a@x.com" "pw1"))
  = ([StoreLookup "a@x.com"; DigestCompare "pw1" "digest:pw1"],
     Return {| id := "1"; email := "a@x.com"; name := "A"; role := ADMIN |})
  ∧ ADMIN = ADMIN
  ∧ "ADMIN" ∈ ["ADMIN"; "USER"; "MODERATOR"].
Proof.
  apply (authorize_returns_claims Scenario.String_toString Scenario.services
           "a@x.com" "pw1" Scenario.alice); done.
Defined.

(** Both branches in the scenario: an unknown email, and the known one
    with a wrong password. *)
Lemma authorize_failure_kinds_witness :
  run Scenario.services
    (authorize Scenario.String_toString (Scenario.credentials "b@x.com" "wrong"))
  = ([StoreLookup "b@x.com"], Thrown (Error "No user found with this email"))
  ∧ run Scenario.services
      (authorize Scenario.String_toString (Scenario.credentials "a@x.com" "wrong"))
    = ([StoreLookup "a@x.com"; DigestCompare "wrong" "digest:pw1"],
       Thrown (Error "Incorrect password")).
Proof.
  split.
  - apply (proj1 (authorize_failure_kinds Scenario.String_toString Scenario.services
                    "b@x.com" "wrong" ltac:(done) ltac:(done))).
    reflexivity.
  - apply (proj1 (proj2 (authorize_failure_kinds Scenario.String_toString
                           Scenario.services "a@x.com" "wrong" ltac:(done) ltac:(done)))
             Scenario.alice); reflexivity.
Defined.

Lemma authorize_invalid_input_witness :
  authorize Scenario.String_toString (Some {| cred_email := Some "a@x.com"; cred_password := Some "" |})
    = Throw (Error "Please enter an email and password")
  ∧ run Scenario.services
      (authorize Scenario.String_toString
         (Some {| cred_email := Some "a@x.com"; cred_password := Some "" |}))
    = ([], Thrown (Error "Please enter an email and password"))
  ∧ failure_kind (Error "Please enter an email and password") = Some InvalidInput
  ∧ filter is_lookup
      (run Scenario.services
         (authorize Scenario.String_toString
            (Some {| cred_email := Some "a@x.com"; cred_password := Some "" |}))).1 = [].
Proof.
  apply (authorize_invalid_input Scenario.String_toString Scenario.services
           (Some {| cred_email := Some "a@x.com"; cred_password := Some "" |})).
  right. right. reflexivity.
Defined.

(** C6 fails on the code: in the scenario, an unknown email and a wrong
    password for a known one are both non-empty credentials of the two
    kinds, and the caller sees two different errors. *)
Lemma authorize_failures_surface_differently :
  findUserByEmail Scenario.services "b@x.com" = inr None
  ∧ findUserByEmail Scenario.services "a@x.com" = inr (Some Scenario.alice)
  ∧ verify Scenario.services "wrong" (user_password Scenario.alice) = inr false
  ∧ (surfaced (run Scenario.services
                (authorize Scenario.String_toString
                   (Scenario.credentials "b@x.com" "wrong"))).2 ≫= failure_kind)
      = Some UserNotFound
  ∧ (surfaced (run Scenario.services
                (authorize Scenario.String_toString
                   (Scenario.credentials "a@x.com" "wrong"))).2 ≫= failure_kind)
      = Some InvalidCredentials
  ∧ surfaced (run Scenario.services
               (authorize Scenario.String_toString
                  (Scenario.credentials "b@x.com" "wrong"))).2
    ≠ surfaced (run Scenario.services
                 (authorize Scenario.String_toString
                    (Scenario.credentials "a@x.com" "wrong"))).2.
Proof. repeat split; done. Qed.

Lemma authorize_failures_distinguishable_witness :
  surfaced (run Scenario.services
              (authorize Scenario.String_toString
                 (Scenario.credentials "b@x.com" "wrong"))).2
    = Some (Error "No user found with this email")
  ∧ surfaced (run Scenario.services
                (authorize Scenario.String_toString
                   (Scenario.credentials "a@x.com" "wrong"))).2
    = Some (Error "Incorrect password")
  ∧ surfaced (run Scenario.services
                (authorize Scenario.String_toString
                   (Scenario.credentials "b@x.com" "wrong"))).2
    ≠ surfaced (run Scenario.services
                  (authorize Scenario.String_toString
                     (Scenario.credentials "a@x.com" "wrong"))).2.
Proof.
  apply (authorize_failures_distinguishable Scenario.String_toString Scenario.services
           "b@x.com" "wrong" "a@x.com" "wrong" Scenario.alice); done.
Defined.

(** * Facts about the callbacks *)

Ltac unfold_M :=
  unfold mbind, mret, M_mbind, M_mret, M_bind, M_ret, throw in *.

(** Run a callback on a heap whose lookups are among the hypotheses. *)
Ltac run_M :=
  unfold_M; unfold get_optional, get, set; simpl;
  repeat (match goal with H : _ !! _ = _ |- _ => rewrite H end; simpl).

Section CallbackFacts.

Implicit Types (h : heap) (v s t token user : value) (l : loc) (o : object).

Lemma get_object h l o k :
  h !! l = Some o → get (VRef l) k h = Some (Return (default VUndefined (o !! k)), h).
Proof. intros H. unfold get. rewrite H. done. Qed.

Lemma set_object h l o k x :
  h !! l = Some o → set (VRef l) k x h = Some (Return (), <[l := <[k := x]> o]> h).
Proof. intros H. unfold set. rewrite H. done. Qed.

Lemma object_at_Some h v l o :
  object_at h v = Some (l, o) ↔ v = VRef l ∧ h !! l = Some o.
Proof.
  destruct v; simpl; try (split; [done | intros [? _]; done]).
  destruct (h !! l0) as [o'|] eqn:E; simpl.
  - split; [intros [= <- <-]; done | intros [[= <-] ?]; congruence].
  - split; [done | intros [[= <-] ?]; congruence].
Qed.

Lemma is_object_true h v :
  is_object h v = true ↔ ∃ l o, v = VRef l ∧ h !! l = Some o.
Proof.
  unfold is_object. rewrite bool_decide_eq_true. split.
  - intros [[l o] H]. apply object_at_Some in H. eauto.
  - intros (l & o & H). exists (l, o). by apply object_at_Some.
Qed.

(** On a [user] whose [role] is a string or missing, the type guard of
    the two other revisions answers as the one of [route.ts] does. *)
Lemma isUser_revisions_agree h user :
  truthy user = true →
  (field h user "role" = Some VUndefined ∨ ∃ r, field h user "role" = Some (VStr r)) →
  isUser_any user h = isUser user h ∧ isUser_unknown user h = isUser user h.
Proof.
  intros Htr Hr. unfold isUser_any, isUser_unknown, isUser. rewrite Htr. unfold_M.
  assert (∃ r, get user "role" h = Some (Return r, h)
               ∧ is_string r = negb (bool_decide (r = VUndefined))) as (r & -> & ->).
  { unfold field in Hr.
    destruct (get user "role" h) as [[[r|e] h1]|] eqn:Hg;
      try (destruct Hr as [Hr | [? Hr]]; done).
    assert (h1 = h) as ->.
    { revert Hg. unfold get. destruct user as [| | b | n | str | l]; simpl; try congruence.
      destruct (h !! l); simpl; congruence. }
    exists r. split; [done|]. destruct Hr as [[= ->] | [r' [= ->]]]; done. }
  done.
Qed.

(** Without a [user] the callback does nothing at all. *)
Lemma jwt_no_user h token user :
  truthy user = false → jwt token user h = Some (Return token, h).
Proof. intros H. unfold jwt. rewrite H. done. Qed.

Lemma jwt_no_role h token user :
  lacks_role h user = true → jwt token user h = Some (Return token, h).
Proof.
  unfold lacks_role. destruct (object_at h user) as [[l o]|] eqn:E; [|done].
  apply object_at_Some in E as [-> Hl]. rewrite bool_decide_eq_true. intros Hrole.
  unfold jwt, isUser; simpl. unfold_M.
  rewrite (get_object h l o) by done. rewrite Hrole. done.
Qed.

Lemma later_requests_frame h token n :
  later_requests n token h = Some (Return token, h).
Proof.
  induction n as [|n IH]; simpl; [done|].
  unfold_M. rewrite jwt_no_user by done. apply IH.
Qed.

Lemma Session_shape_cases h s :
  Session_shape h s = true →
  (nullish s = true)
  ∨ (∃ ls os, s = VRef ls ∧ h !! ls = Some os ∧ os !! "user" = None)
  ∨ (∃ ls os u, s = VRef ls ∧ h !! ls = Some os ∧ os !! "user" = Some u ∧ nullish u = true)
  ∨ (∃ ls os lu ou, s = VRef ls ∧ h !! ls = Some os ∧ os !! "user" = Some (VRef lu)
                    ∧ h !! lu = Some ou).
Proof.
  unfold Session_shape. intros H. apply orb_true_iff in H as [H|H]; [by left|].
  right. destruct (object_at h s) as [[ls os]|] eqn:E; [|done].
  apply object_at_Some in E as [-> Hls].
  destruct (os !! "user") as [u|] eqn:Hu.
  - apply orb_true_iff in H as [H|H].
    + right; left. by exists ls, os, u.
    + right; right. apply is_object_true in H as (lu & ou & -> & Hlu).
      by exists ls, os, lu, ou.
  - left. by exists ls, os.
Qed.

(** C4. On a token that is an object and a session that is absent or an
    object whose [user] is absent or an object, the [session] callback
    returns, and returns the session it was given.  If the session has a
    [user] object, that object is the one it was with [role] set to the
    token's [role], whatever [role] it had, and nothing else in the heap
    has changed; if it has none, nothing has changed. *)
Theorem session_projects h s t :
  Session_shape h s = true → JWT_shape h t = true →
  ∃ h', session s t h = Some (Return s, h')
    ∧ (∀ lu ou, user_of h s = Some (lu, ou) →
         ∃ r, field h t "role" = Some r
              ∧ h' = <[lu := <["role" := r]> ou]> h
              ∧ field h' (VRef lu) "role" = Some r)
    ∧ (user_of h s = None → h' = h).
Proof.
  intros Hs Ht. apply is_object_true in Ht as (lt & ot & -> & Hlt).
  apply Session_shape_cases in Hs
    as [Hs | [(ls & os & -> & Hls & Hu) | [(ls & os & u & -> & Hls & Hu & Hn)
       | (ls & os & lu & ou & -> & Hls & Hu & Hlu)]]].
  - exists h. split; [by destruct s|]. split; [|done].
    intros lu ou H. by destruct s.
  - exists h. split; [|split; [|done]].
    + unfold session. run_M. done.
    + intros lu ou H. unfold user_of in H; simpl in H. rewrite Hls in H; simpl in H.
      rewrite Hu in H. done.
  - exists h. split; [|split; [|done]].
    + unfold session. run_M. by destruct u.
    + intros lu ou H. unfold user_of in H; simpl in H. rewrite Hls in H; simpl in H.
      rewrite Hu in H; simpl in H. by destruct u.
  - exists (<[lu := <["role" := default VUndefined (ot !! "role")]> ou]> h).
    assert (Huser : user_of h (VRef ls) = Some (lu, ou)).
    { unfold user_of; simpl. rewrite Hls; simpl. rewrite Hu; simpl. by rewrite Hlu. }
    split; [|split].
    + unfold session. run_M. done.
    + intros lu' ou' H. rewrite Huser in H. injection H as <- <-.
      exists (default VUndefined (ot !! "role")). split; [|split; [done|]].
      * unfold field. by rewrite (get_object h lt ot).
      * unfold field. erewrite get_object by apply lookup_insert_eq.
        by rewrite lookup_insert_eq.
    + intros H. by rewrite Huser in H.
Qed.

(** The callback on a session with a [user] object and a token whose
    [role] can be read: the one write. *)
Lemma session_write h ls os lu ou t r :
  h !! ls = Some os → os !! "user" = Some (VRef lu) → h !! lu = Some ou →
  field h t "role" = Some r →
  session (VRef ls) t h = Some (Return (VRef ls), <[lu := <["role" := r]> ou]> h).
Proof.
  intros Hls Hu Hlu Hr.
  assert (Hr' : get t "role" h = Some (Return r, h)).
  { unfold field, get in *.
    destruct t as [| | b | n | str | lt]; simpl in *; try congruence.
    destruct (h !! lt); simpl in *; congruence. }
  unfold session. unfold_M. unfold get_optional.
  rewrite (get_object h ls os) by done. rewrite Hu; cbn -[get set].
  rewrite (get_object h ls os) by done. rewrite Hu; cbn -[get set].
  rewrite Hr'. by rewrite (set_object h lu ou).
Qed.

(** All a run of the [session] callback can be: the session returned
    untouched because it has no [user] object, a [TypeError], or the one
    write of [role] into the session's [user] object. *)
Lemma session_inv h s t out h' :
  session s t h = Some (out, h') →
  (out = Return s ∧ h' = h ∧ user_of h s = None)
  ∨ (out = Thrown TypeError ∧ h' = h)
  ∨ ∃ ls os lu ou r,
      s = VRef ls ∧ h !! ls = Some os ∧ os !! "user" = Some (VRef lu)
      ∧ h !! lu = Some ou ∧ field h t "role" = Some r
      ∧ out = Return s ∧ h' = <[lu := <["role" := r]> ou]> h.
Proof.
  intros H.
  destruct (object_at h s) as [[ls os]|] eqn:Hs.
  2:{ left. unfold user_of. rewrite Hs. revert H. unfold session. run_M.
      destruct s as [| | b | n | str | ls]; simpl in *; try (intros [= <- <-]; done).
      destruct (h !! ls); simpl in *; done. }
  apply object_at_Some in Hs as [-> Hls].
  destruct (os !! "user") as [u|] eqn:Hu.
  2:{ left. unfold user_of; simpl. rewrite Hls; simpl. rewrite Hu; simpl.
      revert H. unfold session. run_M. intros [= <- <-]; done. }
  destruct (object_at h u) as [[lu ou]|] eqn:Hou.
  - apply object_at_Some in Hou as [-> Hlu].
    destruct (field h t "role") as [r|] eqn:Hr.
    + right; right. exists ls, os, lu, ou, r.
      rewrite (session_write h ls os lu ou t r) in H by done. naive_solver.
    + right; left. revert H Hr. unfold session, field. run_M.
      destruct t as [| | b | n | str | lt]; simpl; try (intros [= <- <-]; done); try done.
      destruct (h !! lt); simpl; done.
  - assert (Huser : user_of h (VRef ls) = None).
    { unfold user_of; simpl. rewrite Hls; simpl. rewrite Hu; simpl. done. }
    revert H. unfold session.
    destruct u as [| | b | n | str | lu]; simpl in Hou.
    + run_M. intros [= <- <-]; left; done.
    + run_M. intros [= <- <-]; left; done.
    + destruct b; [|run_M; intros [= <- <-]; left; done].
      destruct t as [| | b | n | str | lt]; run_M;
        try (intros [= <- <-]; right; left; done).
      destruct (h !! lt); simpl; [intros [= <- <-]; right; left; done | done].
    + run_M. destruct (bool_decide (n = 0%Z)); simpl; [intros [= <- <-]; left; done|].
      destruct t as [| | b | n' | str | lt]; run_M;
        try (intros [= <- <-]; right; left; done).
      destruct (h !! lt); simpl; [intros [= <- <-]; right; left; done | done].
    + run_M. destruct (bool_decide (str = "")); simpl; [intros [= <- <-]; left; done|].
      destruct t as [| | b | n' | str' | lt]; run_M;
        try (intros [= <- <-]; right; left; done).
      destruct (h !! lt); simpl; [intros [= <- <-]; right; left; done | done].
    + destruct (h !! lu) eqn:Hlu; simpl in Hou; [done|].
      destruct t as [| | b | n | str | lt]; run_M;
        try (intros [= <- <-]; right; left; done); try done.
      destruct (h !! lt) eqn:Hlt; run_M; done.
Qed.

(** Writing a [role] into an object leaves every [user] link in place. *)
Lemma user_of_role_write h s lu ou l o r :
  user_of h s = Some (lu, ou) → h !! l = Some o →
  user_of (<[l := <["role" := r]> o]> h) s
  = Some (lu, if decide (l = lu) then <["role" := r]> ou else ou).
Proof.
  unfold user_of. intros H Hl.
  destruct (object_at h s) as [[ls os]|] eqn:Hs; simpl in H; [|done].
  apply object_at_Some in Hs as [-> Hls].
  destruct (os !! "user") as [u|] eqn:Hu; simpl in H; [|done].
  apply object_at_Some in H as [-> Hlu]. simpl.
  assert (∃ os', <[l := <["role" := r]> o]> h !! ls = Some os'
                 ∧ os' !! "user" = Some (VRef lu)) as (os' & -> & Hu').
  { destruct (decide (l = ls)) as [->|Hne].
    - rewrite lookup_insert_eq. eexists; split; [done|].
      rewrite lookup_insert_ne by done. congruence.
    - rewrite lookup_insert_ne by done. eauto. }
  simpl. rewrite Hu'; simpl.
  destruct (decide (l = lu)) as [->|Hne].
  - rewrite lookup_insert_eq. simpl. congruence.
  - rewrite lookup_insert_ne by done. rewrite Hlu. done.
Qed.

(** The [role] of the token reads the same after the write of the
    [session] callback. *)
Lemma field_after_write h t r lu ou :
  field h t "role" = Some r → h !! lu = Some ou →
  field (<[lu := <["role" := r]> ou]> h) t "role" = Some r.
Proof.
  unfold field, get. intros Hr Hlu.
  destruct t as [| | b | n | str | lt]; simpl in *; try congruence.
  destruct (decide (lu = lt)) as [->|Hne].
  - rewrite lookup_insert_eq; simpl. by rewrite lookup_insert_eq.
  - rewrite lookup_insert_ne by done.
    destruct (h !! lt); simpl in *; done.
Qed.

(** A projected session that has a [user] object carries the role the
    token holds. *)
Lemma session_result h s t s' h' lu ou :
  session s t h = Some (Return s', h') →
  user_of h' s' = Some (lu, ou) →
  ∃ r, field h' t "role" = Some r ∧ ou !! "role" = Some r.
Proof.
  intros H Hu.
  destruct (session_inv _ _ _ _ _ H)
    as [([= ->] & -> & Hnone) | [([=] & _)
       | (ls & os & lu0 & ou0 & r & -> & Hls & Hu0 & Hlu0 & Hr & [= ->] & ->)]].
  - congruence.
  - exists r. split; [by apply field_after_write|].
    assert (Huser : user_of h (VRef ls) = Some (lu0, ou0)).
    { unfold user_of; simpl. rewrite Hls; simpl. rewrite Hu0; simpl. by rewrite Hlu0. }
    rewrite (user_of_role_write h _ lu0 ou0 lu0 ou0 r Huser Hlu0) in Hu.
    rewrite decide_True in Hu by done. injection Hu as <- <-.
    apply lookup_insert_eq.
Qed.

(** The write, repeated, changes nothing. *)
Lemma session_write_again h ls os lu ou t r :
  h !! ls = Some os → os !! "user" = Some (VRef lu) → h !! lu = Some ou →
  field h t "role" = Some r →
  let h' := <[lu := <["role" := r]> ou]> h in
  session (VRef ls) t h' = Some (Return (VRef ls), h').
Proof.
  intros Hls Hu Hlu Hr h'.
  assert (Huser : user_of h (VRef ls) = Some (lu, ou)).
  { unfold user_of; simpl. rewrite Hls; simpl. rewrite Hu; simpl. by rewrite Hlu. }
  pose proof (user_of_role_write h _ lu ou lu ou r Huser Hlu) as Huser'.
  rewrite decide_True in Huser' by done. fold h' in Huser'.
  unfold user_of in Huser'.
  destruct (object_at h' (VRef ls)) as [[ls' os']|] eqn:Hs'; simpl in Huser'; [|done].
  apply object_at_Some in Hs' as [[= <-] Hls'].
  destruct (os' !! "user") as [u|] eqn:Hu'; simpl in Huser'; [|done].
  apply object_at_Some in Huser' as [-> Hlu'].
  rewrite (session_write h' ls os' lu (<["role" := r]> ou) t r); try done.
  - subst h'. by rewrite !insert_insert_eq.
  - by apply field_after_write.
Qed.

Lemma session_again h s t out h' :
  session s t h = Some (out, h') → session s t h' = Some (out, h').
Proof.
  intros H. destruct (session_inv _ _ _ _ _ H)
    as [(-> & -> & _) | [(-> & ->)
       | (ls & os & lu & ou & r & -> & Hls & Hu & Hlu & Hr & -> & ->)]]; [done..|].
  by eapply session_write_again.
Qed.

(** C8. A second call of the [session] callback on the session the first
    one returned, with the same token, returns that same session in an
    unchanged heap; and a call repeated on the same two arguments has the
    outcome of the first, be it a session or an exception, and leaves the
    heap the first call left. *)
Theorem session_idempotent h s t :
  (∀ s' h', session s t h = Some (Return s', h') →
            s' = s ∧ session s' t h' = Some (Return s', h'))
  ∧ (∀ out h', session s t h = Some (out, h') → session s t h' = Some (out, h'))
  ∧ (s' ← session s t; session s' t) h = session s t h.
Proof.
  assert (Hret : ∀ s' h', session s t h = Some (Return s', h') → s' = s).
  { intros s' h' H. destruct (session_inv _ _ _ _ _ H)
      as [(? & _) | [(? & _) | (? & ? & ? & ? & ? & ? & ? & ? & ? & ? & ? & ?)]];
      congruence. }
  split; [|split].
  - intros s' h' H. pose proof (Hret _ _ H) as ->. split; [done|].
    by apply (session_again h).
  - intros out h'. apply session_again.
  - unfold_M. destruct (session s t h) as [[[s'|e] h']|] eqn:H; [|done..].
    pose proof (Hret s' h' eq_refl) as ->. by apply (session_again h).
Qed.

(** C9. When the [user] argument of the [jwt] callback is absent (falsy) or
    is an object without a [role], the callback returns the very token it
    was given and the heap is the one it started in: no property of the
    token, or of anything else, is added, removed or changed.  Hence any
    number of later requests, on which [user] is [undefined], return the
    token in the heap they started in, with the role it held. *)
Theorem jwt_frame h token user :
  truthy user = false ∨ lacks_role h user = true →
  jwt token user h = Some (Return token, h)
  ∧ ∀ n, later_requests n token h = Some (Return token, h).
Proof.
  intros H. split.
  - destruct H; [by apply jwt_no_user | by apply jwt_no_role].
  - intros n. apply later_requests_frame.
Qed.

(** ** More on the two callbacks, for the pipeline *)

Lemma field_get h v k r : field h v k = Some r → get v k h = Some (Return r, h).
Proof.
  unfold field, get.
  destruct v as [| | b | n | str | l]; simpl; try congruence.
  destruct (h !! l); simpl; congruence.
Qed.

Lemma field_role_string h t (R : string) :
  field h t "role" = Some (VStr R) →
  ∃ lt ot, t = VRef lt ∧ h !! lt = Some ot ∧ ot !! "role" = Some (VStr R).
Proof.
  unfold field, get.
  destruct t as [| | b | n | str | lt]; simpl; try congruence.
  destruct (h !! lt) as [ot|] eqn:Hlt; simpl; [|done].
  destruct (ot !! "role") eqn:Hr; simpl; [|done].
  intros [= ->]. eauto.
Qed.

Lemma user_of_Some h s lu ou :
  user_of h s = Some (lu, ou) ↔
  ∃ ls os, s = VRef ls ∧ h !! ls = Some os ∧ os !! "user" = Some (VRef lu)
           ∧ h !! lu = Some ou.
Proof.
  unfold user_of. split.
  - intros H.
    destruct (object_at h s) as [[ls os]|] eqn:Hs; simpl in H; [|done].
    apply object_at_Some in Hs as [-> Hls].
    destruct (os !! "user") as [u|] eqn:Hu; simpl in H; [|done].
    apply object_at_Some in H as [-> Hlu]. eauto 10.
  - intros (ls & os & -> & Hls & Hu & Hlu). simpl.
    rewrite Hls; simpl. rewrite Hu; simpl. by rewrite Hlu.
Qed.

(** A new object disturbs no [user] link. *)
Lemma user_of_alloc h s l o lu ou :
  h !! l = None → user_of h s = Some (lu, ou) →
  user_of (<[l := o]> h) s = Some (lu, ou).
Proof.
  intros Hl. rewrite !user_of_Some. intros (ls & os & -> & Hls & Hu & Hlu).
  exists ls, os. repeat split; [|done|].
  - rewrite lookup_insert_ne; [done | congruence].
  - rewrite lookup_insert_ne; [done | congruence].
Qed.

(** The callback on a session with a [user] object. *)
Lemma session_on_user h s t lu ou r :
  user_of h s = Some (lu, ou) → field h t "role" = Some r →
  let h' := <[lu := <["role" := r]> ou]> h in
  session s t h = Some (Return s, h')
  ∧ user_of h' s = Some (lu, <["role" := r]> ou)
  ∧ field h' t "role" = Some r.
Proof.
  intros Hu Hr h'. pose proof Hu as Hu0.
  apply user_of_Some in Hu as (ls & os & -> & Hls & Huser & Hlu).
  split; [|split].
  - by eapply session_write.
  - subst h'. rewrite (user_of_role_write h _ lu ou lu ou r Hu0 Hlu).
    by rewrite decide_True.
  - by apply field_after_write.
Qed.

(** The [session] callback never changes the role the token holds. *)
Lemma session_keeps_token_role h s t out h' r :
  session s t h = Some (out, h') → field h t "role" = Some r →
  field h' t "role" = Some r.
Proof.
  intros H Hr. destruct (session_inv _ _ _ _ _ H)
    as [(_ & -> & _) | [(_ & ->)
       | (ls & os & lu & ou & r0 & -> & Hls & Hu & Hlu & Hr0 & -> & ->)]]; [done..|].
  assert (r0 = r) as -> by congruence. by apply field_after_write.
Qed.

(** With a [user] that has a role the [jwt] callback writes it to the
    token, and can return only if the token is an object. *)
Lemma jwt_embeds h lt ot user r :
  truthy user = true → field h user "role" = Some r → r ≠ VUndefined →
  h !! lt = Some ot →
  jwt (VRef lt) user h = Some (Return (VRef lt), <[lt := <["role" := r]> ot]> h).
Proof.
  intros Htr Hr Hne Hlt. apply field_get in Hr.
  unfold jwt, isUser. unfold_M. rewrite Htr, Hr.
  rewrite bool_decide_eq_false_2 by done. cbn -[get set].
  rewrite Hr. by rewrite (set_object h lt ot).
Qed.

Lemma jwt_embeds_inv h token user r tk h' :
  truthy user = true → field h user "role" = Some r → r ≠ VUndefined →
  jwt token user h = Some (Return tk, h') →
  ∃ lt ot, token = VRef lt ∧ h !! lt = Some ot ∧ tk = token
           ∧ h' = <[lt := <["role" := r]> ot]> h.
Proof.
  intros Htr Hr Hne H.
  destruct token as [| | b | n | str | lt];
    try (revert H; apply field_get in Hr; unfold jwt, isUser; unfold_M;
         rewrite Htr, Hr; rewrite bool_decide_eq_false_2 by done;
         cbn -[get]; rewrite Hr; done).
  destruct (h !! lt) as [ot|] eqn:Hlt.
  - rewrite (jwt_embeds h lt ot user r) in H by done.
    injection H as <- <-. by exists lt, ot.
  - revert H. apply field_get in Hr. unfold jwt, isUser. unfold_M.
    rewrite Htr, Hr. rewrite bool_decide_eq_false_2 by done. cbn -[get].
    rewrite Hr. simpl. by rewrite Hlt.
Qed.

End CallbackFacts.

(** * Facts about login and the requests that follow *)

Section PipelineFacts.

Context {Id : Type} (Id_toString : Id → string).

Implicit Types (h : heap) (s t token base : value) (u : User (Id := Id)).

Lemma new_object_spec h (o : object) :
  ∃ l, h !! l = None ∧ new_object o h = Some (Return (VRef l), <[l := o]> h).
Proof.
  exists (fresh (dom h)). split; [|done].
  apply not_elem_of_dom, is_fresh.
Qed.

Lemma claims_object_role (c : Claims) :
  claims_object c !! "role" = Some (VStr (Role_value (role c))).
Proof.
  unfold claims_object.
  do 3 (rewrite lookup_insert_ne by done). apply lookup_insert_eq.
Qed.

Lemma Role_value_in_role_strings (r : Role) : VStr (Role_value r) ∈ role_strings.
Proof. unfold role_strings. destruct r; simpl; set_solver. Qed.

(** C7. For every record and every heap in which the token is an object
    and the base session has a [user] object: the claims built from the
    record, embedded in the token by the [jwt] callback and projected by
    the [session] callback, give back the base session with the [role] of
    its [user] object equal to the role of the record; and so does the
    [session] callback applied to the claims object itself. *)
Theorem round_trip_role u h token base lu ou :
  JWT_shape h token = true → user_of h base = Some (lu, ou) →
  (∃ h' ou', round_trip Id_toString u token base h = Some (Return base, h')
     ∧ user_of h' base = Some (lu, ou')
     ∧ ou' !! "role" = Some (VStr (Role_value (user_role u))))
  ∧ (∃ h' ou', round_trip_direct Id_toString u base h = Some (Return base, h')
       ∧ user_of h' base = Some (lu, ou')
       ∧ ou' !! "role" = Some (VStr (Role_value (user_role u)))).
Proof.
  intros Ht Hu. apply is_object_true in Ht as (lt & ot & -> & Hlt).
  set (c := buildClaims Id_toString u).
  set (R := VStr (Role_value (user_role u))).
  destruct (new_object_spec h (claims_object c)) as (l & Hl & Hnew).
  set (h1 := <[l := claims_object c]> h) in *.
  assert (Hrole1 : field h1 (VRef l) "role" = Some R).
  { unfold field. erewrite get_object by apply lookup_insert_eq.
    by rewrite claims_object_role. }
  assert (Hu1 : user_of h1 base = Some (lu, ou)) by by apply user_of_alloc.
  split.
  - assert (Hlt1 : h1 !! lt = Some ot).
    { subst h1. rewrite lookup_insert_ne; [done | congruence]. }
    pose proof (jwt_embeds h1 lt ot (VRef l) R eq_refl Hrole1 ltac:(done) Hlt1) as Hjwt.
    set (h2 := <[lt := <["role" := R]> ot]> h1) in *.
    assert (Hrole2 : field h2 (VRef lt) "role" = Some R).
    { unfold field. erewrite get_object by apply lookup_insert_eq.
      by rewrite lookup_insert_eq. }
    pose proof (user_of_role_write h1 base lu ou lt ot R Hu1 Hlt1) as Hu2.
    fold h2 in Hu2.
    destruct (session_on_user h2 base (VRef lt) lu _ R Hu2 Hrole2) as (Hs & Hu3 & _).
    eexists _, _. split; [|split; [exact Hu3|apply lookup_insert_eq]].
    unfold round_trip. unfold_M. fold c. rewrite Hnew, Hjwt. exact Hs.
  - destruct (session_on_user h1 base (VRef l) lu ou R Hu1 Hrole1) as (Hs & Hu2 & _).
    eexists _, _. split; [|split; [exact Hu2|apply lookup_insert_eq]].
    unfold round_trip_direct. unfold_M. fold c. rewrite Hnew. exact Hs.
Qed.

(** After a sign-in that succeeded, the token holds a member of [Role]. *)
Lemma signIn_role (sv : Services (Id := Id)) credentials token h h' :
  signIn Id_toString sv credentials token h = Some (Return token, h') →
  ∃ r : Role, field h' token "role" = Some (VStr (Role_value r)).
Proof.
  unfold signIn. destruct (run sv (authorize Id_toString credentials)) as [calls [c|e]];
    simpl; [|done].
  unfold_M. destruct (new_object_spec h (claims_object c)) as (l & Hl & ->).
  intros H. exists (role c).
  apply (jwt_embeds_inv _ _ _ (VStr (Role_value (role c)))) in H
    as (lt & ot & -> & Hlt & _ & ->); [| done | | done].
  - unfold field. erewrite get_object by apply lookup_insert_eq.
    by rewrite lookup_insert_eq.
  - unfold field. erewrite get_object by apply lookup_insert_eq.
    by rewrite claims_object_role.
Qed.

(** A request keeps the role of the token, and a session it projects with
    a [user] object carries that role. *)
Lemma request_role token base h out h' r :
  field h token "role" = Some r →
  request token base h = Some (out, h') →
  field h' token "role" = Some r
  ∧ ∀ s lu ou, out = Return s → user_of h' s = Some (lu, ou) → ou !! "role" = Some r.
Proof.
  intros Hr. unfold request. unfold_M. rewrite jwt_no_user by done.
  intros H. pose proof (session_keeps_token_role _ _ _ _ _ _ H Hr) as Hr'.
  split; [done|]. intros s lu ou -> Hu.
  destruct (session_result _ _ _ _ _ _ _ H Hu) as (r' & Hr'' & Hou). congruence.
Qed.

(** C5. In every heap reached by a successful sign-in followed by any
    number of requests, the token holds as [role] one of the strings
    ADMIN, USER, MODERATOR, which is neither [undefined] nor empty; and
    whenever a further request projects a session that has a [user]
    object, that object and the token hold that same string as [role]. *)
Theorem role_invariant (sv : Services (Id := Id)) token h :
  signed_in Id_toString sv token h →
  ∃ r : Role,
    field h token "role" = Some (VStr (Role_value r))
    ∧ VStr (Role_value r) ∈ role_strings
    ∧ VStr (Role_value r) ≠ VUndefined
    ∧ Role_value r ≠ ""
    ∧ ∀ base s h' lu ou,
        request token base h = Some (Return s, h') →
        user_of h' s = Some (lu, ou) →
        ou !! "role" = Some (VStr (Role_value r))
        ∧ field h' token "role" = Some (VStr (Role_value r)).
Proof.
  intros Hreach.
  assert (∃ r : Role, field h token "role" = Some (VStr (Role_value r))) as [r Hr].
  { induction Hreach as [credentials h h' Hsign | base out h h' _ [r IH] Hreq].
    - by eapply signIn_role.
    - exists r. by apply (request_role token base h out h' _ IH). }
  exists r. split; [done|]. split; [apply Role_value_in_role_strings|].
  split; [done|]. split; [by destruct r|].
  intros base s h' lu ou Hreq Hu.
  destruct (request_role token base h _ h' _ Hr Hreq) as [Hr' Hs].
  split; [by eapply Hs | done].
Qed.

End PipelineFacts.

(** * Facts about the store-client module *)

Section PrismaFacts.

Import Prisma.

Implicit Types (p : process) (env : option string) (c : PrismaClient).

Lemma constructed_app (l1 l2 : list event) :
  constructed (l1 ++ l2) = constructed l1 + constructed l2.
Proof. unfold constructed. by rewrite filter_app, length_app. Qed.

(** Outside production, a client on the global: read twice, reused. *)
Lemma prisma_dev_warm env p c :
  env ≠ Some "production" → global_prisma p = Some c →
  prisma env p = (Some c, {| global_prisma := Some c;
                             log := log p ++ [ReadGlobal; ReadGlobal] |}).
Proof.
  intros Henv Hg. unfold prisma. rewrite bool_decide_eq_false_2 by done.
  unfold mbind, mret, St_mbind, St_mret, read_global; simpl.
  rewrite Hg; simpl. by rewrite <- app_assoc.
Qed.

(** Outside production, nothing on the global: one client constructed,
    stored, and read back. *)
Lemma prisma_dev_cold env p :
  env ≠ Some "production" → global_prisma p = None →
  prisma env p =
    (Some (constructed (log p)),
     {| global_prisma := Some (constructed (log p));
        log := log p ++ [ReadGlobal; Construct (constructed (log p));
                         WriteGlobal (constructed (log p)); ReadGlobal] |}).
Proof.
  intros Henv Hg. unfold prisma. rewrite bool_decide_eq_false_2 by done.
  unfold mbind, mret, St_mbind, St_mret, read_global, new_PrismaClient, write_global;
    simpl.
  rewrite Hg; simpl. rewrite constructed_app; simpl. rewrite Nat.add_0_r.
  by rewrite <- !app_assoc.
Qed.

(** In production: one client constructed, the global neither read nor
    written. *)
Lemma prisma_production p :
  prisma (Some "production") p =
    (Some (constructed (log p)),
     {| global_prisma := global_prisma p;
        log := log p ++ [Construct (constructed (log p))] |}).
Proof. done. Qed.

(** Once a client is on the global, reloads outside production all export
    it and construct nothing. *)
Lemma reloads_warm env c n : ∀ p,
  env ≠ Some "production" → global_prisma p = Some c →
  ∃ p', reloads env n p = (replicate n (Some c), p')
        ∧ global_prisma p' = Some c
        ∧ constructed (log p') = constructed (log p).
Proof.
  induction n as [|n IH]; intros p Henv Hg; simpl.
  - by exists p.
  - unfold mbind, mret, St_mbind, St_mret in *.
    rewrite (prisma_dev_warm env p c) by done.
    destruct (IH {| global_prisma := Some c; log := log p ++ [ReadGlobal; ReadGlobal] |})
      as (p' & -> & Hg' & Hc'); [done..|].
    exists p'. split; [done|]. split; [done|].
    rewrite Hc'. cbn [log]. rewrite constructed_app.
    change (constructed [ReadGlobal; ReadGlobal]) with 0. lia.
Qed.

(** C10. Outside production the module reuses the client on the global
    when there is one, constructing none, and otherwise constructs one and
    stores it on the global; however often the module is evaluated in one
    process, at most one client is constructed and every evaluation
    exports the same one.  In production it constructs a client and the
    global is neither read nor written. *)
Theorem prisma_module_init env p :
  (env ≠ Some "production" →
     (∀ c, global_prisma p = Some c →
           (prisma env p).1 = Some c
           ∧ global_prisma (prisma env p).2 = Some c
           ∧ constructed (log (prisma env p).2) = constructed (log p))
     ∧ (global_prisma p = None →
           ∃ c, (prisma env p).1 = Some c
                ∧ global_prisma (prisma env p).2 = Some c
                ∧ log (prisma env p).2
                  = (log p ++ [ReadGlobal; Construct c; WriteGlobal c; ReadGlobal])%list)
     ∧ (∀ n, ∃ c, (reloads env n p).1 = replicate n (Some c)
                  ∧ (constructed (log (reloads env n p).2)
                     ≤ constructed (log p) + 1)%nat))
  ∧ (env = Some "production" →
       ∃ c, (prisma env p).1 = Some c
            ∧ global_prisma (prisma env p).2 = global_prisma p
            ∧ log (prisma env p).2 = (log p ++ [Construct c])%list
            ∧ filter is_global_access (log (prisma env p).2)
              = filter is_global_access (log p)).
Proof.
  split.
  - intros Henv. split; [|split].
    + intros c Hg. rewrite (prisma_dev_warm env p c) by done. simpl.
      split; [done|]. split; [done|]. rewrite constructed_app.
      change (constructed [ReadGlobal; ReadGlobal]) with 0. lia.
    + intros Hg. rewrite (prisma_dev_cold env p) by done. simpl. eauto.
    + intros n. destruct (global_prisma p) as [c|] eqn:Hg.
      * destruct (reloads_warm env c n p) as (p' & -> & _ & Hc); [done..|].
        exists c. simpl. split; [done | lia].
      * exists (constructed (log p)). destruct n as [|n]; simpl; [split; [done | lia]|].
        unfold mbind, mret, St_mbind, St_mret.
        rewrite (prisma_dev_cold env p) by done.
        match goal with |- context [reloads env n ?q] =>
          destruct (reloads_warm env (constructed (log p)) n q) as (p' & -> & _ & Hc);
            [done..|]
        end.
        simpl. split; [done|]. rewrite Hc. cbn [log]. rewrite constructed_app.
        set (c := constructed (log p)).
        change (constructed [ReadGlobal; Construct c; WriteGlobal c; ReadGlobal]) with 1.
        lia.
  - intros ->. rewrite prisma_production. simpl.
    exists (constructed (log p)). repeat split.
    rewrite filter_app. simpl. by rewrite app_nil_r.
Qed.

End PrismaFacts.

(** * The scenario, through the callbacks and the module *)

(** The projection of the specification: a base session with email and
    name, a token with role MODERATOR. *)
Lemma session_projects_witness :
  ∃ h', session Scenario.base_session Scenario.token Scenario.heap_moderator
        = Some (Return Scenario.base_session, h')
    ∧ (∀ lu ou, user_of Scenario.heap_moderator Scenario.base_session = Some (lu, ou) →
         ∃ r, field Scenario.heap_moderator Scenario.token "role" = Some r
              ∧ h' = <[lu := <["role" := r]> ou]> Scenario.heap_moderator
              ∧ field h' (VRef lu) "role" = Some r)
    ∧ (user_of Scenario.heap_moderator Scenario.base_session = None →
       h' = Scenario.heap_moderator).
Proof.
  apply (session_projects Scenario.heap_moderator Scenario.base_session Scenario.token);
    vm_compute; reflexivity.
Defined.

(** C4 fails on the code as it is stated: with a [user] present and no
    token, and with a [user] that is a string, the callback throws; so it
    does not return on every input. *)
Lemma session_throws_outside_types :
  session Scenario.base_session VUndefined Scenario.heap0
  = Some (Thrown TypeError, Scenario.heap0)
  ∧ session (VRef 5) Scenario.token Examples.heap_primitive_user
    = Some (Thrown TypeError, Examples.heap_primitive_user)
  ∧ ¬ (∀ (h : heap) (s t : value), ∃ s' h', session s t h = Some (Return s', h')).
Proof.
  split; [by vm_compute|]. split; [by vm_compute|].
  intros H. destruct (H Scenario.heap0 Scenario.base_session VUndefined) as (s' & h' & Hs).
  vm_compute in Hs. discriminate Hs.
Qed.

Lemma session_idempotent_witness :
  session Scenario.base_session Scenario.token Scenario.heap_projected
  = Some (Return Scenario.base_session, Scenario.heap_projected).
Proof.
  apply (proj1 (proj2 (session_idempotent Scenario.heap_moderator
                         Scenario.base_session Scenario.token))
           (Return Scenario.base_session) Scenario.heap_projected).
  vm_compute. reflexivity.
Defined.

(** No [user] at all, and a [user] object without a role. *)
Lemma jwt_frame_witness :
  (jwt Scenario.token VUndefined Scenario.heap_moderator
   = Some (Return Scenario.token, Scenario.heap_moderator)
   ∧ ∀ n, later_requests n Scenario.token Scenario.heap_moderator
          = Some (Return Scenario.token, Scenario.heap_moderator))
  ∧ (jwt Scenario.token (VRef 2) Scenario.heap_moderator
     = Some (Return Scenario.token, Scenario.heap_moderator)
     ∧ ∀ n, later_requests n Scenario.token Scenario.heap_moderator
            = Some (Return Scenario.token, Scenario.heap_moderator)).
Proof.
  split.
  - apply (jwt_frame Scenario.heap_moderator Scenario.token VUndefined).
    left. reflexivity.
  - apply (jwt_frame Scenario.heap_moderator Scenario.token (VRef 2)).
    right. vm_compute. reflexivity.
Defined.

Lemma round_trip_role_witness :
  (∃ h' ou', round_trip Scenario.String_toString Scenario.alice Scenario.token
               Scenario.base_session Scenario.heap0
             = Some (Return Scenario.base_session, h')
     ∧ user_of h' Scenario.base_session = Some (2%positive, ou')
     ∧ ou' !! "role" = Some (VStr "ADMIN"))
  ∧ (∃ h' ou', round_trip_direct Scenario.String_toString Scenario.alice
                 Scenario.base_session Scenario.heap0
               = Some (Return Scenario.base_session, h')
       ∧ user_of h' Scenario.base_session = Some (2%positive, ou')
       ∧ ou' !! "role" = Some (VStr "ADMIN")).
Proof.
  apply (round_trip_role Scenario.String_toString Scenario.alice Scenario.heap0
           Scenario.token Scenario.base_session 2%positive Scenario.user_object);
    vm_compute; reflexivity.
Defined.

Lemma role_invariant_witness :
  ∃ r : Role,
    field Scenario.heap_signed_in Scenario.token "role" = Some (VStr (Role_value r))
    ∧ VStr (Role_value r) ∈ role_strings
    ∧ VStr (Role_value r) ≠ VUndefined
    ∧ Role_value r ≠ ""
    ∧ ∀ base s h' lu ou,
        request Scenario.token base Scenario.heap_signed_in = Some (Return s, h') →
        user_of h' s = Some (lu, ou) →
        ou !! "role" = Some (VStr (Role_value r))
        ∧ field h' Scenario.token "role" = Some (VStr (Role_value r)).
Proof.
  apply (role_invariant Scenario.String_toString Scenario.services Scenario.token
           Scenario.heap_signed_in).
  apply (signed_in_first Scenario.String_toString Scenario.services Scenario.token
           (Scenario.credentials "a@x.com" "pw1") Scenario.heap0).
  vm_compute. reflexivity.
Defined.

(** Development mode with a cached client and without one, and
    production. *)
Lemma prisma_module_init_witness :
  (∃ c, (Prisma.prisma (Some "development") Scenario.cold).1 = Some c
        ∧ Prisma.global_prisma (Prisma.prisma (Some "development") Scenario.cold).2 = Some c
        ∧ Prisma.log (Prisma.prisma (Some "development") Scenario.cold).2
          = (Prisma.log Scenario.cold
             ++ [Prisma.ReadGlobal; Prisma.Construct c; Prisma.WriteGlobal c;
                 Prisma.ReadGlobal])%list)
  ∧ ((Prisma.prisma (Some "development") Scenario.warm).1 = Some 0
   ∧ Prisma.global_prisma (Prisma.prisma (Some "development") Scenario.warm).2 = Some 0
   ∧ Prisma.constructed (Prisma.log (Prisma.prisma (Some "development") Scenario.warm).2)
     = Prisma.constructed (Prisma.log Scenario.warm))
  ∧ (∃ c, (Prisma.prisma (Some "production") Scenario.warm).1 = Some c
          ∧ Prisma.global_prisma (Prisma.prisma (Some "production") Scenario.warm).2
            = Prisma.global_prisma Scenario.warm
          ∧ Prisma.log (Prisma.prisma (Some "production") Scenario.warm).2
            = (Prisma.log Scenario.warm ++ [Prisma.Construct c])%list
          ∧ filter Prisma.is_global_access
              (Prisma.log (Prisma.prisma (Some "production") Scenario.warm).2)
            = filter Prisma.is_global_access (Prisma.log Scenario.warm)).
Proof.
  split; [|split].
  - apply (proj1 (proj2 (proj1 (prisma_module_init (Some "development") Scenario.cold)
                           ltac:(done)))).
    reflexivity.
  - apply (proj1 (proj1 (prisma_module_init (Some "development") Scenario.warm)
                    ltac:(done)) 0).
    reflexivity.
  - apply (proj2 (prisma_module_init (Some "production") Scenario.warm)).
    reflexivity.
Defined.

(** * More about [authorize] *)

Section AuthorizeMore.

Context {Id : Type} (Id_toString : Id → string) (sv : Services (Id := Id)).

Lemma authorize_guard_throws (credentials : option Credentials) :
  missing_or_empty (credentials ≫= cred_email)
  ∨ missing_or_empty (credentials ≫= cred_password) →
  authorize Id_toString credentials = Throw (Error "Please enter an email and password").
Proof.
  intros H.
  assert (Hg : not_ (credentials ≫= cred_email) || not_ (credentials ≫= cred_password) = true).
  { apply orb_true_iff. destruct H as [[-> | ->] | [-> | ->]]; simpl; auto. }
  unfold authorize. by rewrite Hg.
Qed.

(** Every run of [authorize] is one of six. *)
Lemma authorize_cases (credentials : option Credentials) :
  ((missing_or_empty (credentials ≫= cred_email)
    ∨ missing_or_empty (credentials ≫= cred_password))
   ∧ run sv (authorize Id_toString credentials)
     = ([], Thrown (Error "Please enter an email and password")))
  ∨ ∃ mail pass,
      credentials = Some {| cred_email := Some mail; cred_password := Some pass |}
      ∧ mail ≠ "" ∧ pass ≠ ""
      ∧ ((∃ e, findUserByEmail sv mail = inl e
               ∧ run sv (authorize Id_toString credentials)
                 = ([StoreLookup mail], Thrown e))
         ∨ (findUserByEmail sv mail = inr None
            ∧ run sv (authorize Id_toString credentials)
              = ([StoreLookup mail], Thrown (Error "No user found with this email")))
         ∨ (∃ u e, findUserByEmail sv mail = inr (Some u)
                   ∧ verify sv pass (user_password u) = inl e
                   ∧ run sv (authorize Id_toString credentials)
                     = ([StoreLookup mail; DigestCompare pass (user_password u)],
                        Thrown e))
         ∨ (∃ u, findUserByEmail sv mail = inr (Some u)
                 ∧ verify sv pass (user_password u) = inr false
                 ∧ run sv (authorize Id_toString credentials)
                   = ([StoreLookup mail; DigestCompare pass (user_password u)],
                      Thrown (Error "Incorrect password")))
         ∨ (∃ u, findUserByEmail sv mail = inr (Some u)
                 ∧ verify sv pass (user_password u) = inr true
                 ∧ run sv (authorize Id_toString credentials)
                   = ([StoreLookup mail; DigestCompare pass (user_password u)],
                      Return (buildClaims Id_toString u)))).
Proof.
  assert (Hbad : missing_or_empty (credentials ≫= cred_email)
                 ∨ missing_or_empty (credentials ≫= cred_password) →
                 (missing_or_empty (credentials ≫= cred_email)
                  ∨ missing_or_empty (credentials ≫= cred_password))
                 ∧ run sv (authorize Id_toString credentials)
                   = ([], Thrown (Error "Please enter an email and password"))).
  { intros H. split; [done|]. by rewrite authorize_guard_throws. }
  destruct credentials as [[[mail|] [pass|]]|];
    try (left; apply Hbad; unfold missing_or_empty; simpl; auto; fail).
  destruct (decide (mail = "")) as [->|Hm].
  { left. apply Hbad. left; right; done. }
  destruct (decide (pass = "")) as [->|Hp].
  { left. apply Hbad. right; right; done. }
  clear Hbad.
  right. exists mail, pass. repeat (split; [done|]).
  rewrite authorize_guard_passes by done. simpl.
  destruct (findUserByEmail sv mail) as [e|[u|]] eqn:Hfind; simpl.
  - left. eauto.
  - destruct (verify sv pass (user_password u)) as [e|[]] eqn:Hver; simpl.
    + right; right; left. eauto.
    + do 4 right. eauto.
    + do 3 right; left. eauto.
  - right; left. done.
Qed.

(** X1. [authorize] returns claims only for credentials with a non-empty
    email and password, under whose email the store holds a record and
    whose password the hashing library accepts against that record's
    digest; the claims are those of that record and the run made exactly
    that lookup and that comparison. *)
Theorem authorize_sound (credentials : option Credentials) calls (c : Claims) :
  run sv (authorize Id_toString credentials) = (calls, Return c) →
  ∃ mail pass u,
    credentials = Some {| cred_email := Some mail; cred_password := Some pass |}
    ∧ mail ≠ "" ∧ pass ≠ ""
    ∧ findUserByEmail sv mail = inr (Some u)
    ∧ verify sv pass (user_password u) = inr true
    ∧ c = buildClaims Id_toString u
    ∧ calls = [StoreLookup mail; DigestCompare pass (user_password u)].
Proof.
  intros H.
  destruct (authorize_cases credentials)
    as [[_ Hr] | (mail & pass & -> & Hm & Hp
         & [(e & _ & Hr) | [(_ & Hr) | [(u & e & _ & _ & Hr)
           | [(u & _ & _ & Hr) | (u & Hf & Hv & Hr)]]]])];
    rewrite Hr in H; try done.
  injection H as <- <-. by exists mail, pass, u.
Qed.

(** X2. When the lookup itself rejects, [authorize] throws the store's
    error as it is, after that one lookup and without any comparison of
    digests. *)
Theorem authorize_store_fault (mail pass : string) (e : exn) :
  mail ≠ "" → pass ≠ "" →
  findUserByEmail sv mail = inl e →
  run sv (authorize Id_toString
            (Some {| cred_email := Some mail; cred_password := Some pass |}))
  = ([StoreLookup mail], Thrown e).
Proof.
  intros Hm Hp Hfind. rewrite authorize_guard_passes by done.
  simpl. by rewrite Hfind.
Qed.

(** X3. Whatever the credentials and the collaborators, an error thrown
    by [authorize] is one of its own three, each of a known kind, or the
    error the lookup of the submitted email rejected with, or the error
    the comparison of the submitted password with the digest of the
    record found rejected with; it is never a [TypeError] of [authorize]
    itself. *)
Theorem authorize_failure_classified (credentials : option Credentials) calls (e : exn) :
  run sv (authorize Id_toString credentials) = (calls, Thrown e) →
  (e = Error "Please enter an email and password" ∧ failure_kind e = Some InvalidInput
   ∧ calls = [])
  ∨ (e = Error "No user found with this email" ∧ failure_kind e = Some UserNotFound)
  ∨ (e = Error "Incorrect password" ∧ failure_kind e = Some InvalidCredentials)
  ∨ (∃ mail, credentials ≫= cred_email = Some mail
             ∧ findUserByEmail sv mail = inl e
             ∧ calls = [StoreLookup mail])
  ∨ (∃ mail pass u,
       credentials = Some {| cred_email := Some mail; cred_password := Some pass |}
       ∧ findUserByEmail sv mail = inr (Some u)
       ∧ verify sv pass (user_password u) = inl e
       ∧ calls = [StoreLookup mail; DigestCompare pass (user_password u)]).
Proof.
  intros H.
  destruct (authorize_cases credentials)
    as [[_ Hr] | (mail & pass & -> & Hm & Hp
         & [(e' & Hf & Hr) | [(_ & Hr) | [(u & e' & Hf & Hv & Hr)
           | [(u & _ & _ & Hr) | (u & Hf & Hv & Hr)]]]])];
    rewrite Hr in H; try done; injection H as <- <-.
  - by left.
  - do 3 right. left. by exists mail.
  - right; left. done.
  - do 4 right. by exists mail, pass, u.
  - right; right; left. done.
Qed.

(** X4. The calls of a run of [authorize]: at most one lookup, and its key
    is the submitted email as it was submitted; a comparison of digests
    only after a lookup that found a record, of the submitted password
    against the digest of that record. *)
Theorem authorize_call_discipline (credentials : option Credentials) :
  let calls := (run sv (authorize Id_toString credentials)).1 in
  (List.length (filter is_lookup calls) ≤ 1)%nat
  ∧ (∀ m, StoreLookup m ∈ calls → credentials ≫= cred_email = Some m)
  ∧ (∀ s hash, DigestCompare s hash ∈ calls →
       ∃ m u, calls = [StoreLookup m; DigestCompare s hash]
              ∧ credentials ≫= cred_password = Some s
              ∧ findUserByEmail sv m = inr (Some u)
              ∧ hash = user_password u).
Proof.
  intros calls. subst calls.
  destruct (authorize_cases credentials)
    as [[_ Hr] | (mail & pass & -> & Hm & Hp
         & [(e' & Hf & Hr) | [(Hf & Hr) | [(u & e' & Hf & Hv & Hr)
           | [(u & Hf & Hv & Hr) | (u & Hf & Hv & Hr)]]]])];
    rewrite Hr; cbn [fst]; (split; [simpl; lia|]);
    (split; [intros m Hin | intros s hash Hin]);
    rewrite ?elem_of_cons, ?elem_of_nil in Hin;
    repeat (destruct Hin as [Hin|Hin]); simplify_eq; try done.
  - by exists mail, u.
  - by exists mail, u.
  - by exists mail, u.
Qed.

End AuthorizeMore.

(** * More about the callbacks *)

Section CallbackMore.

Implicit Types (h : heap) (v s t token user : value) (l : loc) (o : object).

(** All a run of the [jwt] callback can be: the token returned untouched
    because the guard failed, a [TypeError] because the token is no
    object, or the one write of [role] into the token. *)
Lemma jwt_inv h token user out h' :
  jwt token user h = Some (out, h') →
  (out = Return token ∧ h' = h
   ∧ (truthy user = false ∨ field h user "role" = Some VUndefined))
  ∨ (out = Thrown TypeError ∧ h' = h ∧ object_at h token = None)
  ∨ ∃ lt ot r,
      token = VRef lt ∧ h !! lt = Some ot ∧ truthy user = true
      ∧ field h user "role" = Some r ∧ r ≠ VUndefined
      ∧ out = Return token ∧ h' = <[lt := <["role" := r]> ot]> h.
Proof.
  intros H. destruct (truthy user) eqn:Htr.
  2:{ rewrite jwt_no_user in H by done. injection H as <- <-. left. auto. }
  destruct (field h user "role") as [r|] eqn:Hr.
  2:{ revert H Hr. unfold jwt, isUser, field. unfold_M. rewrite Htr.
      destruct (get user "role" h) as [[[r|e] h1]|] eqn:Hg; try done.
      destruct user as [| | b | n | str | l]; simpl in Htr, Hg; try done.
      destruct (h !! l); done. }
  destruct (decide (r = VUndefined)) as [->|Hne].
  { left. revert H. apply field_get in Hr. unfold jwt, isUser. unfold_M.
    rewrite Htr, Hr. simpl. intros [= <- <-]. auto. }
  destruct (object_at h token) as [[lt ot]|] eqn:Ht.
  - apply object_at_Some in Ht as [-> Hlt].
    rewrite (jwt_embeds h lt ot user r) in H by done. injection H as <- <-.
    right; right. by exists lt, ot, r.
  - right; left. revert H. apply field_get in Hr. unfold jwt, isUser. unfold_M.
    rewrite Htr, Hr. rewrite bool_decide_eq_false_2 by done. cbn -[get set].
    rewrite Hr. unfold set.
    destruct token as [| | b | n | str | lt]; try (intros [= <- <-]; done).
    simpl in Ht. destruct (h !! lt); done.
Qed.

(** X5. With a [user] whose [role] is anything but [undefined] (a string,
    but also [null]) and a token that is an object, the [jwt] callback
    returns the token with [role] set to the user's, every other property
    of the token as it was and every other object untouched. *)
Theorem jwt_writes_role h lt ot user r :
  truthy user = true → field h user "role" = Some r → r ≠ VUndefined →
  h !! lt = Some ot →
  ∃ h', jwt (VRef lt) user h = Some (Return (VRef lt), h')
        ∧ field h' (VRef lt) "role" = Some r
        ∧ (∀ k, k ≠ "role" → field h' (VRef lt) k = field h (VRef lt) k)
        ∧ (∀ l, l ≠ lt → h' !! l = h !! l).
Proof.
  intros Htr Hr Hne Hlt. eexists. split; [by apply jwt_embeds|].
  split; [|split].
  - unfold field. erewrite get_object by apply lookup_insert_eq.
    by rewrite lookup_insert_eq.
  - intros k Hk. unfold field. erewrite get_object by apply lookup_insert_eq.
    rewrite (get_object h lt ot) by done. by rewrite lookup_insert_ne.
  - intros l Hl. by rewrite lookup_insert_ne.
Qed.

(** X6. The [jwt] callback called again on the same token and user, in
    the heap the first call left, has the outcome of the first call and
    leaves that heap as it is. *)
Theorem jwt_idempotent h token user out h' :
  jwt token user h = Some (out, h') → jwt token user h' = Some (out, h').
Proof.
  intros H. destruct (jwt_inv _ _ _ _ _ H)
    as [(-> & -> & _) | [(-> & -> & _)
       | (lt & ot & r & -> & Hlt & Htr & Hr & Hne & -> & ->)]]; [done..|].
  rewrite (jwt_embeds _ lt (<["role" := r]> ot) user r); try done.
  - by rewrite !insert_insert_eq.
  - by apply field_after_write.
  - apply lookup_insert_eq.
Qed.

(** X7. A callback that throws has changed nothing: the heap is the one
    it was called in, and what it throws is a [TypeError]. *)
Theorem callbacks_throw_without_writing h a b e h' :
  (jwt a b h = Some (Thrown e, h') → e = TypeError ∧ h' = h)
  ∧ (session a b h = Some (Thrown e, h') → e = TypeError ∧ h' = h).
Proof.
  split; intros H.
  - destruct (jwt_inv _ _ _ _ _ H)
      as [([=] & _) | [([= ->] & -> & _) | (? & ? & ? & _ & _ & _ & _ & _ & [=] & _)]].
    done.
  - destruct (session_inv _ _ _ _ _ H)
      as [([=] & _) | [([= ->] & ->) | (? & ? & ? & ? & ? & _ & _ & _ & _ & _ & [=] & _)]].
    done.
Qed.

(** A write of [role] into an object of the heap. *)
Lemma role_write_frame h l o r :
  h !! l = Some o →
  let h' := <[l := <["role" := r]> o]> h in
  (∀ l', is_Some (h' !! l') ↔ is_Some (h !! l'))
  ∧ (∀ l' o1 o2 k, h !! l' = Some o1 → h' !! l' = Some o2 → k ≠ "role" →
                   o2 !! k = o1 !! k)
  ∧ (∀ l', l' ≠ l → h' !! l' = h !! l').
Proof.
  intros Hl h'. subst h'. split; [|split].
  - intros l'. destruct (decide (l = l')) as [<-|Hne].
    + rewrite lookup_insert_eq, Hl. split; eauto.
    + by rewrite lookup_insert_ne.
  - intros l' o1 o2 k H1 H2 Hk. destruct (decide (l = l')) as [<-|Hne].
    + rewrite lookup_insert_eq in H2. injection H2 as <-.
      rewrite lookup_insert_ne by done. congruence.
    + rewrite lookup_insert_ne in H2 by done. congruence.
  - intros l' Hne. by rewrite lookup_insert_ne.
Qed.

(** X8. Whatever it is called with, the [session] callback creates and
    removes no object, changes no property other than [role], and touches
    no object other than the [user] object of the session. *)
Theorem session_writes_only_role h s t out h' :
  session s t h = Some (out, h') →
  (∀ l, is_Some (h' !! l) ↔ is_Some (h !! l))
  ∧ (∀ l o1 o2 k, h !! l = Some o1 → h' !! l = Some o2 → k ≠ "role" →
                  o2 !! k = o1 !! k)
  ∧ (∀ l, (∀ ou, user_of h s ≠ Some (l, ou)) → h' !! l = h !! l).
Proof.
  intros H. destruct (session_inv _ _ _ _ _ H)
    as [(_ & -> & _) | [(_ & ->)
       | (ls & os & lu & ou & r & -> & Hls & Hu & Hlu & Hr & -> & ->)]].
  - split; [done|]. split; [|done]. intros; congruence.
  - split; [done|]. split; [|done]. intros; congruence.
  - destruct (role_write_frame h lu ou r Hlu) as (Hdom & Hkeys & Hother).
    split; [done|]. split; [done|].
    intros l Hl. apply Hother. intros ->. apply (Hl ou).
    apply user_of_Some. by exists ls, os.
Qed.

(** X9. Whatever it is called with, the [jwt] callback creates and removes
    no object, changes no property other than [role], and touches no
    object other than the token. *)
Theorem jwt_writes_only_role h token user out h' :
  jwt token user h = Some (out, h') →
  (∀ l, is_Some (h' !! l) ↔ is_Some (h !! l))
  ∧ (∀ l o1 o2 k, h !! l = Some o1 → h' !! l = Some o2 → k ≠ "role" →
                  o2 !! k = o1 !! k)
  ∧ (∀ l, token ≠ VRef l → h' !! l = h !! l).
Proof.
  intros H. destruct (jwt_inv _ _ _ _ _ H)
    as [(_ & -> & _) | [(_ & -> & _)
       | (lt & ot & r & -> & Hlt & Htr & Hr & Hne & -> & ->)]].
  - split; [done|]. split; [|done]. intros; congruence.
  - split; [done|]. split; [|done]. intros; congruence.
  - destruct (role_write_frame h lt ot r Hlt) as (Hdom & Hkeys & Hother).
    split; [done|]. split; [done|].
    intros l Hl. apply Hother. congruence.
Qed.

(** The callback on a session whose [user] is truthy: a read of the
    token's [role] and a write to [user]. *)
Lemma session_with_user h ls os u t :
  h !! ls = Some os → os !! "user" = Some u → truthy u = true →
  session (VRef ls) t h
  = match get t "role" h with
    | Some (Return r, h1) =>
        match set u "role" r h1 with
        | Some (Return _, h2) => Some (Return (VRef ls), h2)
        | Some (Thrown e, h2) => Some (Thrown e, h2)
        | None => None
        end
    | Some (Thrown e, h1) => Some (Thrown e, h1)
    | None => None
    end.
Proof.
  intros Hls Hu Htr. unfold session. unfold_M. unfold get_optional.
  rewrite (get_object h ls os) by done. rewrite Hu; cbn -[get set]. rewrite Htr.
  rewrite (get_object h ls os) by done. rewrite Hu; cbn -[get set].
  destruct (get t "role" h) as [[[r|e] h1]|]; [|done..].
  by destruct (set u "role" r h1) as [[[[]|e] h2]|].
Qed.

(** X10. The [session] callback throws exactly when the session is an
    object whose [user] is truthy and either the token is [undefined] or
    [null], or [user] is not an object (and the token's [role] can be
    read).  On every other input it returns. *)
Theorem session_throws_iff h s t :
  (∃ e h', session s t h = Some (Thrown e, h')) ↔
  ∃ ls os u,
    s = VRef ls ∧ h !! ls = Some os ∧ os !! "user" = Some u ∧ truthy u = true
    ∧ (nullish t = true ∨ ((∀ l, u ≠ VRef l) ∧ is_Some (field h t "role"))).
Proof.
  split.
  - intros (e & h' & H).
    destruct s as [| | b | n | str | ls]; try (revert H; unfold session; run_M; done).
    destruct (h !! ls) as [os|] eqn:Hls; [|revert H; unfold session; run_M; done].
    destruct (os !! "user") as [u|] eqn:Hu; [|revert H; unfold session; run_M; done].
    destruct (truthy u) eqn:Htr.
    2:{ revert H. unfold session. run_M. by rewrite Htr. }
    exists ls, os, u. repeat (split; [done|]).
    rewrite (session_with_user h ls os u t) in H by done.
    destruct (nullish t) eqn:Hn; [by left | right].
    destruct (get t "role" h) as [[[r|e'] h1]|] eqn:Hg; [| |done].
    + split.
      * intros l ->. unfold set in H. by destruct (h1 !! l).
      * exists r. unfold field. by rewrite Hg.
    + destruct t as [| | b | n | str | lt]; simpl in Hn, Hg; try done.
      destruct (h !! lt); done.
  - intros (ls & os & u & -> & Hls & Hu & Htr & [Hn | [Hu' [r Hr]]]).
    + exists TypeError, h. rewrite (session_with_user h ls os u t) by done.
      by destruct t.
    + exists TypeError, h. rewrite (session_with_user h ls os u t) by done.
      rewrite (field_get _ _ _ _ Hr).
      destruct u as [| | b | n | str | lu]; try done. by destruct (Hu' lu).
Qed.

(** X11. On a truthy [user] whose [role] is a string or missing, the
    [jwt] callbacks of the other revisions do what the one of [route.ts]
    does; on one whose [role] is anything else ([null], a number) they
    return the token and leave the heap as it is, where [route.ts] writes
    that [role] into the token. *)
Theorem jwt_revisions h token user r :
  truthy user = true → field h user "role" = Some r →
  (is_string r = true ∨ r = VUndefined →
     Revisions.jwt_any token user h = jwt token user h
     ∧ Revisions.jwt_unknown token user h = jwt token user h)
  ∧ (is_string r = false →
     Revisions.jwt_any token user h = Some (Return token, h)
     ∧ Revisions.jwt_unknown token user h = Some (Return token, h)).
Proof.
  intros Htr Hr. apply field_get in Hr.
  unfold Revisions.jwt_any, Revisions.jwt_unknown, jwt, isUser_any, isUser_unknown, isUser.
  unfold_M. rewrite Htr, Hr. split.
  - intros [Hs | ->]; [|done]. by destruct r.
  - intros Hs. by rewrite Hs.
Qed.

End CallbackMore.

(** * More about the store-client module *)

Section PrismaMore.

Import Prisma.

Implicit Types (p : process) (env : option string) (c : PrismaClient).

(** One evaluation in production. *)
Lemma reloads_production_step n p :
  reloads (Some "production") (S n) p
  = let '(cs, p') :=
      reloads (Some "production") n
        {| global_prisma := global_prisma p;
           log := log p ++ [Construct (constructed (log p))] |} in
    (Some (constructed (log p)) :: cs, p').
Proof. done. Qed.

Lemma reloads_production n : ∀ p,
  (reloads (Some "production") n p).1
  = map Some (seq (constructed (log p)) n)
  ∧ constructed (log (reloads (Some "production") n p).2) = constructed (log p) + n
  ∧ global_prisma (reloads (Some "production") n p).2 = global_prisma p.
Proof.
  induction n as [|n IH]; intros p.
  - simpl. repeat split. lia.
  - rewrite reloads_production_step.
    specialize (IH {| global_prisma := global_prisma p;
                      log := log p ++ [Construct (constructed (log p))] |}).
    destruct (reloads (Some "production") n _) as [cs p'] eqn:Hr.
    cbn [fst snd log global_prisma] in IH. destruct IH as (-> & Hc & Hg).
    rewrite constructed_app in *.
    change (constructed [Construct (constructed (log p))]) with 1 in *.
    cbn [fst snd]. rewrite Nat.add_1_r in *. split; [done|]. split; [lia | done].
Qed.

(** X12. In production every evaluation of the module constructs a client
    of its own: [n] evaluations export [n] different clients, and the
    global is as it was. *)
Theorem prisma_production_reloads n p :
  (reloads (Some "production") n p).1
  = map Some (seq (constructed (log p)) n)
  ∧ NoDup (reloads (Some "production") n p).1
  ∧ constructed (log (reloads (Some "production") n p).2) = constructed (log p) + n
  ∧ global_prisma (reloads (Some "production") n p).2 = global_prisma p.
Proof.
  destruct (reloads_production n p) as (He & Hc & Hg).
  split; [done|]. split; [|done]. rewrite He.
  apply (NoDup_fmap_2 Some), NoDup_seq.
Qed.

(** X13. The export is never [undefined], whatever the mode and the
    process; outside production it is the client the global holds
    afterwards. *)
Theorem prisma_export_defined env p :
  ∃ c, (prisma env p).1 = Some c
       ∧ (env ≠ Some "production" → global_prisma (prisma env p).2 = Some c).
Proof.
  destruct (decide (env = Some "production")) as [->|Henv].
  - exists (constructed (log p)). by rewrite prisma_production.
  - destruct (global_prisma p) as [c|] eqn:Hg.
    + exists c. by rewrite (prisma_dev_warm env p c).
    + exists (constructed (log p)). by rewrite (prisma_dev_cold env p).
Qed.

(** X14. A client on the global stays there: no evaluation of the module,
    in whatever mode and however often, replaces or removes it. *)
Theorem prisma_global_kept env n : ∀ p c,
  global_prisma p = Some c → global_prisma (reloads env n p).2 = Some c.
Proof.
  destruct (decide (env = Some "production")) as [->|Henv]; intros p c Hg.
  - destruct (reloads_production n p) as (_ & _ & ->). done.
  - destruct (reloads_warm env c n p) as (p' & -> & Hg' & _); done.
Qed.

End PrismaMore.

(** * Facts about the report wizard *)

Section ReportWizardFacts.

Import ReportWizard.

Implicit Types (s seen pending : state) (d data : object) (ds : list object).

Lemma complete_step s d :
  (currentStep s ≤ 4)%Z →
  currentStep (complete s d) = Z.min (currentStep s + 1) 4.
Proof.
  intros Hs. unfold complete, handleStepComplete.
  case_bool_decide as H4; simpl; lia.
Qed.

Lemma completions_snoc ds d s :
  completions (ds ++ [d]) s = complete (completions ds s) d.
Proof. unfold completions. by rewrite foldl_app. Qed.

Lemma completions_step ds : ∀ s,
  (currentStep s ≤ 4)%Z →
  currentStep (completions ds s) = Z.min (currentStep s + Z.of_nat (List.length ds)) 4.
Proof.
  induction ds as [|d ds IH]; intros s Hs.
  - simpl. lia.
  - change (completions (d :: ds) s) with (completions ds (complete s d)).
    cbn [List.length]. rewrite Nat2Z.inj_succ.
    rewrite IH; rewrite complete_step by done; lia.
Qed.

(** X15. With one completion handled per render, the wizard that starts at
    step 1 is after [n] completions at step [min (1 + n) 4]: the step goes
    up by one each time and stops at 4. *)
Theorem wizard_step ds :
  currentStep (completions ds initial) = Z.min (1 + Z.of_nat (List.length ds)) 4.
Proof. by rewrite completions_step. Qed.

(** X16. What the wizard shows, with one completion handled per render: the
    form before any completion, after the first one the confirmation with
    the [reportId] of the data the form completed with, and after the
    second one and from then on nothing. *)
Theorem wizard_render ds :
  render (completions ds initial)
  = match ds with
    | [] => ReportForm
    | [d] => ReportSubmitted (default VUndefined (d !! "reportId"))
    | _ => Nothing
    end.
Proof.
  destruct ds as [|d [|d' ds]]; [done| |].
  - unfold completions, complete, handleStepComplete, render, spread; simpl.
    by rewrite (right_id_L ∅ (∪)).
  - pose proof (completions_step (d :: d' :: ds) initial ltac:(done)) as Hstep.
    cbn [List.length] in Hstep. rewrite !Nat2Z.inj_succ in Hstep.
    change (currentStep initial) with 1%Z in Hstep.
    unfold render. rewrite !bool_decide_eq_false_2; [done | |]; rewrite Hstep; lia.
Qed.

Lemma same_render_snoc seen ds d :
  completions_same_render seen (ds ++ [d])
  = handleStepComplete seen d (completions_same_render seen ds).
Proof. unfold completions_same_render. by rewrite foldl_app. Qed.

(** X17. Completions handled by one and the same render all see the state
    that render captured.  Below step 4 each of them raises the step, so
    the step can pass 4; at step 4 none does.  And the data kept is the
    captured data overridden by the last completion alone: what the earlier
    ones of that render brought is lost. *)
Theorem wizard_same_render seen ds :
  currentStep (completions_same_render seen ds)
  = (if bool_decide (currentStep seen = 4%Z) then currentStep seen
     else (currentStep seen + Z.of_nat (List.length ds))%Z)
  ∧ reportData (completions_same_render seen ds)
    = match last ds with
      | None => reportData seen
      | Some d => Some (spread (reportData seen) d)
      end.
Proof.
  induction ds as [|d ds [IHs IHd]] using rev_ind.
  - split; [|done]. unfold completions_same_render. cbn [foldl List.length].
    case_bool_decide; lia.
  - rewrite same_render_snoc, last_snoc. unfold handleStepComplete.
    rewrite length_app. cbn [List.length]. rewrite Nat2Z.inj_add.
    case_bool_decide as H4; cbn [currentStep reportData].
    + split; [|done]. by rewrite IHs.
    + split; [|done]. rewrite IHs. lia.
Qed.

Lemma completions_data_snoc ds d s :
  reportData (completions (ds ++ [d]) s)
  = Some (d ∪ default ∅ (reportData (completions ds s))).
Proof.
  rewrite completions_snoc. unfold complete, handleStepComplete, spread.
  by case_bool_decide.
Qed.

(** X18. With one completion handled per render the data accumulate: a
    property a completion brought is kept, with the value of the last
    completion that brought it, and a property of the data the wizard
    started with is kept until a completion brings it. *)
Theorem wizard_data_accumulates ds1 d ds2 s k :
  (∀ d', d' ∈ ds2 → d' !! k = None) →
  default ∅ (reportData (completions (ds1 ++ d :: ds2) s)) !! k
  = match d !! k with
    | Some x => Some x
    | None => default ∅ (reportData (completions ds1 s)) !! k
    end.
Proof.
  induction ds2 as [|d2 ds2 IH] using rev_ind; intros Hk.
  - rewrite (completions_data_snoc ds1 d s). simpl.
    rewrite lookup_union.
    by destruct (d !! k), (default ∅ (reportData (completions ds1 s)) !! k).
  - replace (ds1 ++ d :: ds2 ++ [d2])%list with ((ds1 ++ d :: ds2) ++ [d2])%list
      by by rewrite <- app_assoc.
    rewrite completions_data_snoc. simpl. rewrite lookup_union.
    rewrite (Hk d2) by (apply elem_of_app; right; apply list_elem_of_singleton; done).
    rewrite (left_id_L None (∪)). apply IH.
    intros d' Hd'. apply Hk. apply elem_of_app. by left.
Qed.

End ReportWizardFacts.

(** * Facts about the location input *)

Section LocationInputFacts.

Import LocationInput.

Context {Float : Type}.
Context (parseFloat : string → Float) (toFixed6 : Float → string).
Context (length : string → nat).

Implicit Types (s : state (Float := Float)) (o : LocationOption (Float := Float)).

(** X19. Whatever the search request comes back with, [fetchLocations]
    makes that one request, calls neither callback, and ends with the
    loading flag down.  On a list of places the options become the places
    in their order, each labelled with its display name, and the error is
    cleared; on a rejection the options stay as they were and the error
    is the fixed message. *)
Theorem fetchLocations_settles (response : exn + list NominatimPlace) (query : string) s :
  let es := fetchLocations parseFloat response query in
  let s' := settle s es in
  isLoading s' = false
  ∧ filter is_request es = [axios_get_search query]
  ∧ filter is_callback es = []
  ∧ match response with
    | inr places =>
        options s' = map (format parseFloat) places
        ∧ map label (options s') = map display_name places
        ∧ map value (options s')
          = map (λ p, place_lat p +:+ "," +:+ place_lon p) places
        ∧ locationError s' = None
    | inl _ =>
        options s' = options s
        ∧ locationError s' = Some "Failed to fetch location suggestions."
    end.
Proof.
  intros es s'. subst es s'. destruct response as [e|places]; simpl.
  - done.
  - repeat split; by rewrite map_map.
Qed.

(** X20. The effect on the debounced query asks the search service iff
    the query is longer than two; a shorter one empties the options
    without any request and leaves the loading flag and the error as they
    were. *)
Theorem search_short_query (response : exn + list NominatimPlace) (q : string) s :
  filter is_request (search parseFloat length response q)
  = (if bool_decide (2 < length q) then [axios_get_search q] else [])
  ∧ ((length q ≤ 2)%nat →
     search parseFloat length response q = [setOptions []]
     ∧ options (settle s (search parseFloat length response q)) = []
     ∧ isLoading (settle s (search parseFloat length response q)) = isLoading s
     ∧ locationError (settle s (search parseFloat length response q)) = locationError s).
Proof.
  unfold search. split.
  - case_bool_decide; [|done]. by destruct response.
  - intros Hq. rewrite bool_decide_eq_false_2 by lia. done.
Qed.

Lemma selected_first (opts : list LocationOption) o :
  o ∈ opts →
  ∃ before o' after,
    opts = (before ++ o' :: after)%list
    ∧ label o' = label o
    ∧ (∀ x, x ∈ before → label x ≠ label o)
    ∧ selected opts (label o) = Some o'.
Proof.
  unfold selected. induction opts as [|x opts IH]; intros Hin.
  - by apply elem_of_nil in Hin.
  - simpl. case_bool_decide as Hx.
    + exists [], x, opts. repeat split; [done|].
      intros y Hy. by apply elem_of_nil in Hy.
    + apply elem_of_cons in Hin as [->|Hin]; [done|].
      destruct (IH Hin) as (before & o' & after & -> & Hl & Hb & Hs).
      exists (x :: before), o', after. repeat split; [done| |done].
      intros y Hy. apply elem_of_cons in Hy as [->|Hy]; [done | by apply Hb].
Qed.

Lemma selected_unique (opts : list LocationOption) o :
  NoDup (map label opts) → o ∈ opts → selected opts (label o) = Some o.
Proof.
  unfold selected. induction opts as [|x opts IH]; intros Hnd Hin.
  - by apply elem_of_nil in Hin.
  - simpl. apply NoDup_cons in Hnd as [Hx Hnd].
    apply elem_of_cons in Hin as [->|Hin].
    + by rewrite bool_decide_eq_true_2.
    + rewrite bool_decide_eq_false_2; [by apply IH|].
      intros Heq. apply Hx. rewrite Heq. by apply (list_elem_of_fmap_2 label).
Qed.

(** X21. Choosing an option makes [handleChange] pass its label to
    [onChange], first, and the select then shows the first of the options
    with that label, in the order of the list: the chosen one when no two
    options share a label, an earlier one of the same label otherwise. *)
Theorem handleChange_selected given (opts : list LocationOption) o :
  o ∈ opts →
  ∃ rest,
    handleChange given (Some o) = onChange (label o) :: rest
    ∧ (∃ before o' after,
         opts = (before ++ o' :: after)%list
         ∧ label o' = label o
         ∧ (∀ x, x ∈ before → label x ≠ label o)
         ∧ selected opts (label o) = Some o')
    ∧ (NoDup (map label opts) → selected opts (label o) = Some o).
Proof.
  intros Hin. eexists. split; [done|]. split.
  - by apply selected_first.
  - intros Hnd. by apply selected_unique.
Qed.

Lemma settle_app s (es1 es2 : list effect) :
  settle s (es1 ++ es2) = settle (settle s es1) es2.
Proof. unfold settle. apply foldl_app. Qed.

(** X22. A click on the button, whatever the browser and the services
    answer: the loading flag ends down and the options are untouched.
    The callbacks are called only when a position was obtained: then
    [onChange] gets the name the reverse lookup found when it found a
    non-empty one, and otherwise (no name, an empty one, a rejected
    lookup) the coordinates to six places, in either case a non-empty
    string; [onCoordinatesChange] (if given) gets the coordinates; and no
    error is shown.  Otherwise no callback is called and the error is the
    message of what went wrong; without [navigator.geolocation] no
    position is asked for. *)
Theorem onClick_outcome given supported (position : Z + Float * Float)
    (response : exn + option string) s :
  let es := onClick toFixed6 given supported position response in
  let s' := settle s es in
  isLoading s' = false
  ∧ options s' = options s
  ∧ match supported, position with
    | true, inr (latitude, longitude) =>
        let shown :=
          match response with
          | inr (Some name) =>
              if bool_decide (name = "")
              then toFixed6 latitude +:+ ", " +:+ toFixed6 longitude
              else name
          | _ => toFixed6 latitude +:+ ", " +:+ toFixed6 longitude
          end in
        locationError s' = None
        ∧ filter is_callback es
          = onChange shown
            :: onCoordinatesChange_optional given (Some (latitude, longitude))
        ∧ filter is_request es = [axios_get_reverse latitude longitude]
        ∧ shown ≠ ""
    | true, inl code =>
        locationError s' = Some (position_error_message code)
        ∧ filter is_callback es = []
        ∧ filter is_request es = []
    | false, _ =>
        locationError s' = Some "Geolocation is not supported by your browser"
        ∧ filter is_callback es = []
        ∧ filter is_request es = []
        ∧ getCurrentPosition ∉ es
    end.
Proof.
  intros es s'. subst es s'. unfold onClick.
  destruct supported; simpl.
  2:{ repeat split; [done..|]. intros Hin.
      repeat (apply elem_of_cons in Hin as [Hin|Hin]; [done|]).
      by apply elem_of_nil in Hin. }
  destruct position as [code|[latitude longitude]]; simpl; [done|].
  assert (Hne : toFixed6 latitude +:+ ", " +:+ toFixed6 longitude ≠ "").
  { by destruct (toFixed6 latitude). }
  destruct response as [e|[name|]]; simpl.
  - repeat split; by destruct given.
  - case_bool_decide as Hname; simpl; repeat split; by destruct given.
  - repeat split; by destruct given.
Qed.

End LocationInputFacts.

(** * The scenario, through the rest of the code *)

Lemma authorize_sound_witness :
  ∃ mail pass u,
    Scenario.credentials "a@x.com" "pw1"
    = Some {| cred_email := Some mail; cred_password := Some pass |}
    ∧ mail ≠ "" ∧ pass ≠ ""
    ∧ findUserByEmail Scenario.services mail = inr (Some u)
    ∧ verify Scenario.services pass (user_password u) = inr true
    ∧ {| id := "1"; email := "a@x.com"; name := "A"; role := ADMIN |}
      = buildClaims Scenario.String_toString u
    ∧ [StoreLookup "a@x.com"; DigestCompare "pw1" "digest:pw1"]
      = [StoreLookup mail; DigestCompare pass (user_password u)].
Proof.
  apply (authorize_sound Scenario.String_toString Scenario.services
           (Scenario.credentials "a@x.com" "pw1")).
  reflexivity.
Defined.

Lemma authorize_store_fault_witness :
  run Examples.unreachable
    (authorize Scenario.String_toString (Scenario.credentials "a@x.com" "pw1"))
  = ([StoreLookup "a@x.com"], Thrown (Error "Can't reach database server")).
Proof.
  apply (authorize_store_fault Scenario.String_toString Examples.unreachable
           "a@x.com" "pw1"); done.
Defined.

(** A record whose digest the library cannot read. *)
Lemma authorize_failure_classified_witness :
  (Error "Invalid salt version" = Error "Please enter an email and password"
   ∧ failure_kind (Error "Invalid salt version") = Some InvalidInput
   ∧ [StoreLookup "a@x.com"; DigestCompare "pw1" "digest:pw1"] = [])
  ∨ (Error "Invalid salt version" = Error "No user found with this email"
     ∧ failure_kind (Error "Invalid salt version") = Some UserNotFound)
  ∨ (Error "Invalid salt version" = Error "Incorrect password"
     ∧ failure_kind (Error "Invalid salt version") = Some InvalidCredentials)
  ∨ (∃ mail, Scenario.credentials "a@x.com" "pw1" ≫= cred_email = Some mail
             ∧ findUserByEmail Examples.corrupt mail = inl (Error "Invalid salt version")
             ∧ [StoreLookup "a@x.com"; DigestCompare "pw1" "digest:pw1"]
               = [StoreLookup mail])
  ∨ (∃ mail pass u,
       Scenario.credentials "a@x.com" "pw1"
       = Some {| cred_email := Some mail; cred_password := Some pass |}
       ∧ findUserByEmail Examples.corrupt mail = inr (Some u)
       ∧ verify Examples.corrupt pass (user_password u)
         = inl (Error "Invalid salt version")
       ∧ [StoreLookup "a@x.com"; DigestCompare "pw1" "digest:pw1"]
         = [StoreLookup mail; DigestCompare pass (user_password u)]).
Proof.
  apply (authorize_failure_classified Scenario.String_toString Examples.corrupt
           (Scenario.credentials "a@x.com" "pw1")).
  reflexivity.
Defined.

Lemma authorize_call_discipline_witness :
  ∃ m u,
    (run Scenario.services
       (authorize Scenario.String_toString (Scenario.credentials "a@x.com" "wrong"))).1
    = [StoreLookup m; DigestCompare "wrong" "digest:pw1"]
    ∧ Scenario.credentials "a@x.com" "wrong" ≫= cred_password = Some "wrong"
    ∧ findUserByEmail Scenario.services m = inr (Some u)
    ∧ "digest:pw1" = user_password u.
Proof.
  apply (proj2 (proj2 (authorize_call_discipline Scenario.String_toString
                         Scenario.services (Scenario.credentials "a@x.com" "wrong")))
           "wrong" "digest:pw1").
  vm_compute. apply elem_of_cons. right. apply elem_of_cons. by left.
Defined.

(** A user whose [role] is [null]: [route.ts] writes it into the token. *)
Lemma jwt_writes_role_witness :
  ∃ h', jwt Scenario.token (VRef 4) Examples.heap_null_role
        = Some (Return Scenario.token, h')
        ∧ field h' Scenario.token "role" = Some VNull
        ∧ (∀ k, k ≠ "role" →
                field h' Scenario.token k = field Examples.heap_null_role Scenario.token k)
        ∧ (∀ l, l ≠ 3%positive → h' !! l = Examples.heap_null_role !! l).
Proof.
  apply (jwt_writes_role Examples.heap_null_role 3%positive
           (<["email" := VStr "a@x.com"]> (<["sub" := VStr "1"]> ∅)) (VRef 4) VNull);
    try done; vm_compute; reflexivity.
Defined.

Lemma jwt_idempotent_witness :
  jwt Scenario.token (VRef 4) Examples.heap_null_token
  = Some (Return Scenario.token, Examples.heap_null_token).
Proof.
  apply (jwt_idempotent Examples.heap_null_role Scenario.token (VRef 4)).
  vm_compute. reflexivity.
Defined.

(** The [session] callback without a token. *)
Lemma callbacks_throw_without_writing_witness :
  TypeError = TypeError ∧ Scenario.heap0 = Scenario.heap0.
Proof.
  apply (proj2 (callbacks_throw_without_writing Scenario.heap0
                  Scenario.base_session VUndefined TypeError Scenario.heap0)).
  vm_compute. reflexivity.
Defined.

Lemma session_writes_only_role_witness :
  (∀ l, is_Some (Scenario.heap_projected !! l) ↔ is_Some (Scenario.heap_moderator !! l))
  ∧ (∀ l o1 o2 k,
       Scenario.heap_moderator !! l = Some o1 → Scenario.heap_projected !! l = Some o2 →
       k ≠ "role" → o2 !! k = o1 !! k)
  ∧ (∀ l, (∀ ou, user_of Scenario.heap_moderator Scenario.base_session ≠ Some (l, ou)) →
          Scenario.heap_projected !! l = Scenario.heap_moderator !! l).
Proof.
  apply (session_writes_only_role Scenario.heap_moderator Scenario.base_session
           Scenario.token (Return Scenario.base_session)).
  vm_compute. reflexivity.
Defined.

Lemma jwt_writes_only_role_witness :
  (∀ l, is_Some (Examples.heap_null_token !! l) ↔ is_Some (Examples.heap_null_role !! l))
  ∧ (∀ l o1 o2 k,
       Examples.heap_null_role !! l = Some o1 → Examples.heap_null_token !! l = Some o2 →
       k ≠ "role" → o2 !! k = o1 !! k)
  ∧ (∀ l, Scenario.token ≠ VRef l →
          Examples.heap_null_token !! l = Examples.heap_null_role !! l).
Proof.
  apply (jwt_writes_only_role Examples.heap_null_role Scenario.token (VRef 4)
           (Return Scenario.token)).
  vm_compute. reflexivity.
Defined.

Lemma session_throws_iff_witness :
  ∃ e h', session Scenario.base_session VNull Scenario.heap0 = Some (Thrown e, h').
Proof.
  apply (proj2 (session_throws_iff Scenario.heap0 Scenario.base_session VNull)).
  exists 1%positive, (<["user" := VRef 2]> (<["expires" := VStr "2026-01-01"]> ∅)), (VRef 2).
  repeat split; try (vm_compute; reflexivity). by left.
Defined.

Lemma jwt_revisions_witness :
  Revisions.jwt_any Scenario.token (VRef 4) Examples.heap_null_role
  = Some (Return Scenario.token, Examples.heap_null_role)
  ∧ Revisions.jwt_unknown Scenario.token (VRef 4) Examples.heap_null_role
    = Some (Return Scenario.token, Examples.heap_null_role).
Proof.
  apply (proj2 (jwt_revisions Examples.heap_null_role Scenario.token (VRef 4) VNull
                  eq_refl ltac:(vm_compute; reflexivity))).
  reflexivity.
Defined.

Lemma prisma_export_defined_witness :
  ∃ c, (Prisma.prisma (Some "development") Scenario.cold).1 = Some c
       ∧ (Some "development" ≠ Some "production" →
          Prisma.global_prisma (Prisma.prisma (Some "development") Scenario.cold).2
          = Some c).
Proof. apply (prisma_export_defined (Some "development") Scenario.cold). Defined.

Lemma prisma_global_kept_witness :
  Prisma.global_prisma (Prisma.reloads (Some "production") 3 Scenario.warm).2 = Some 0.
Proof.
  apply (prisma_global_kept (Some "production") 3 Scenario.warm 0). reflexivity.
Defined.

(** The [reportId] of the first step outlives a second step that brings
    none. *)
Lemma wizard_data_accumulates_witness :
  default ∅ (ReportWizard.reportData
               (ReportWizard.completions
                  ([] ++ Examples.submitted :: [Examples.acknowledged])
                  ReportWizard.initial)) !! "reportId"
  = match Examples.submitted !! "reportId" with
    | Some x => Some x
    | None => default ∅ (ReportWizard.reportData
                           (ReportWizard.completions [] ReportWizard.initial)) !! "reportId"
    end.
Proof.
  apply (wizard_data_accumulates [] Examples.submitted [Examples.acknowledged]
           ReportWizard.initial "reportId").
  intros d' Hd'. apply list_elem_of_singleton in Hd' as ->. reflexivity.
Defined.

Lemma search_short_query_witness :
  LocationInput.search (λ x : string, x) String.length (inr []) "ab"
  = [LocationInput.setOptions []]
  ∧ LocationInput.options
      (LocationInput.settle Examples.idle
         (LocationInput.search (λ x : string, x) String.length (inr []) "ab")) = []
  ∧ LocationInput.isLoading
      (LocationInput.settle Examples.idle
         (LocationInput.search (λ x : string, x) String.length (inr []) "ab"))
    = LocationInput.isLoading Examples.idle
  ∧ LocationInput.locationError
      (LocationInput.settle Examples.idle
         (LocationInput.search (λ x : string, x) String.length (inr []) "ab"))
    = LocationInput.locationError Examples.idle.
Proof.
  apply (proj2 (search_short_query (λ x : string, x) String.length (inr []) "ab"
                  Examples.idle)).
  simpl. lia.
Defined.

(** Two places called Paris: choosing the second shows the first. *)
Lemma handleChange_selected_witness :
  ∃ rest,
    LocationInput.handleChange true (Some Examples.paris_texas)
    = LocationInput.onChange "Paris" :: rest
    ∧ (∃ before o' after,
         [Examples.paris; Examples.london; Examples.paris_texas]
         = (before ++ o' :: after)%list
         ∧ LocationInput.label o' = "Paris"
         ∧ (∀ x, x ∈ before → LocationInput.label x ≠ "Paris")
         ∧ LocationInput.selected
             [Examples.paris; Examples.london; Examples.paris_texas] "Paris"
           = Some o')
    ∧ (NoDup (map LocationInput.label
                [Examples.paris; Examples.london; Examples.paris_texas]) →
       LocationInput.selected
         [Examples.paris; Examples.london; Examples.paris_texas] "Paris"
       = Some Examples.paris_texas).
Proof.
  apply (handleChange_selected true
           [Examples.paris; Examples.london; Examples.paris_texas] Examples.paris_texas).
  do 2 (apply elem_of_cons; right). apply elem_of_cons. by left.
Defined.
